(** * Holoscan test suite: reactor, process runner and UI controls

    A shallow embedding of [holoscan_test_suite/reactor.py] and
    [holoscan_test_suite/controls.py], with the pieces of the Python
    runtime and of the operating system these two modules lean on
    ([list.sort], tuple comparison, [select.epoll], pipes, child
    processes).

    Conventions.
    - Monotonic timestamps and periods are exact numbers ([Z], clock
      ticks); the rounding of floating-point addition is not modelled.
    - Text is a byte string ([string]); for ASCII text the utf-8
      [encode]/[decode] pair of the source is the identity and is left out.
    - A Python callable is known by its identity only: callables are
      compared with [=], and ordering two of them raises [TypeError].
    - The world outside the program enters as data: the readings of the
      clock, the lists [epoll.poll] returns, what spawning a command
      leads to, whether a child heeds SIGTERM within the timeout. *)

From stdpp Require Import gmap strings list fin_maps sorting pretty.
From Stdlib Require Import ZArith Ascii.

Set Default Proof Using "Type*".

(** ** Python exceptions and results *)

Record exn := Exn {
  exn_class : string;          (* name of the exception class *)
  exn_text : string;           (* str(e) *)
  exn_is_Exception : bool      (* isinstance(e, Exception) *)
}.

#[global] Instance exn_eq_dec : EqDecision exn.
Proof. solve_decision. Defined.

Definition TypeError (msg : string) : exn := Exn "TypeError" msg true.
Definition KeyError (msg : string) : exn := Exn "KeyError" msg true.
Definition AttributeError (msg : string) : exn := Exn "AttributeError" msg true.
Definition FileExistsError : exn :=
  Exn "FileExistsError" "[Errno 17] File exists" true.
Definition FileNotFoundError : exn :=
  Exn "FileNotFoundError" "[Errno 2] No such file or directory" true.
Definition BadFileDescriptor : exn :=
  Exn "OSError" "[Errno 9] Bad file descriptor" true.
Definition TimeoutExpired : exn :=
  Exn "TimeoutExpired" "timed out after 20 seconds" true.

(* the lines of traceback.format_exception(e), joined; the stack frames
   between the first and the last line are left out *)
Definition format_exception (e : exn) : string :=
  "Traceback (most recent call last):" +:+ "
" +:+ exn_class e +:+ ": " +:+ exn_text e +:+ "
".

(** What a call can do: return, raise, never come back from a system
    call ([Blocked]), or use up what the model was given to run on, a
    depth of calls or a list of clock readings ([NoFuel]). *)
Inductive res (A : Type) : Type :=
  | Ret (a : A)
  | Raise (e : exn)
  | Blocked
  | NoFuel.
Arguments Ret {A} a.
Arguments Raise {A} e.
Arguments Blocked {A}.
Arguments NoFuel {A}.

(** ** [list.sort]

    CPython's [list.sort] on fewer than 64 elements ([listobject.c], as
    in versions 3.10 to 3.12):
    [count_run] finds the natural run at the start of the list, a strictly
    descending run is reversed, and [binarysort] inserts the remaining
    elements one by one at the place a binary search finds.  Only [<] is
    used.  When a comparison raises, the sort stops at once and the list
    keeps the arrangement reached so far.  (From 64 elements on CPython
    merges several such runs: the comparisons made differ, the result of a
    sort that succeeds does not.) *)

Inductive sort_result (A : Type) : Type :=
  | SortOk (l : list A)
  | SortFail (e : exn) (l : list A).
Arguments SortOk {A} l.
Arguments SortFail {A} e l.

Definition sort_list {A} (s : sort_result A) : list A :=
  match s with SortOk l => l | SortFail _ l => l end.

Section list_sort.
Context {A : Type} (lt : A → A → exn + bool).

(* the ascending branch of count_run: elements after [prev] that do not
   go below their predecessor *)
Fixpoint count_asc (prev : A) (rest : list A) : exn + nat :=
  match rest with
  | [] => inr 0
  | x :: rest' =>
    match lt x prev with
    | inl e => inl e
    | inr true => inr 0
    | inr false =>
      match count_asc x rest' with
      | inl e => inl e
      | inr k => inr (S k)
      end
    end
  end.

(* the descending branch: elements each strictly below its predecessor *)
Fixpoint count_desc (prev : A) (rest : list A) : exn + nat :=
  match rest with
  | [] => inr 0
  | x :: rest' =>
    match lt x prev with
    | inl e => inl e
    | inr false => inr 0
    | inr true =>
      match count_desc x rest' with
      | inl e => inl e
      | inr k => inr (S k)
      end
    end
  end.

(* the binary search of binarysort: [pivot] belongs at the index
   returned; [fuel] bounds the iterations, [r - l] is enough *)
Fixpoint bsearch (fuel : nat) (pivot : A) (a : list A) (l r : nat)
    : exn + nat :=
  match fuel with
  | 0 => inr l
  | S fuel' =>
    if decide (l < r) then
      let p := l + (r - l) / 2 in
      match a !! p with
      | None => inr l
      | Some x =>
        match lt pivot x with
        | inl e => inl e
        | inr true => bsearch fuel' pivot a l p
        | inr false => bsearch fuel' pivot a (S p) r
        end
      end
    else inr l
  end.

(* [done] is the sorted front of the list, [rest] what is still to be
   inserted *)
Fixpoint binarysort (done rest : list A) : sort_result A :=
  match rest with
  | [] => SortOk done
  | pivot :: rest' =>
    match bsearch (length done) pivot done 0 (length done) with
    | inl e => SortFail e (done ++ pivot :: rest')
    | inr l => binarysort (take l done ++ pivot :: drop l done) rest'
    end
  end.

Definition list_sort (l : list A) : sort_result A :=
  match l with
  | a0 :: a1 :: rest =>
    match lt a1 a0 with
    | inl e => SortFail e l
    | inr true =>
      match count_desc a1 rest with
      | inl e => SortFail e l
      | inr k =>
        binarysort (reverse (a0 :: a1 :: take k rest)) (drop k rest)
      end
    | inr false =>
      match count_asc a1 rest with
      | inl e => SortFail e l
      | inr k => binarysort (a0 :: a1 :: take k rest) (drop k rest)
      end
    end
  | _ => SortOk l
  end.
End list_sort.

(** ** State and exceptions threaded through calls

    A computation over a state [S]: it returns or raises, and either way
    hands back the state it leaves behind (what a raising call has
    already written stays written). *)

Definition py (S A : Type) : Type := S → res A * S.

#[global] Instance py_ret {S} : MRet (py S) := λ A a s, (Ret a, s).
#[global] Instance py_bind {S} : MBind (py S) := λ A B f m s,
  match m s with
  | (Ret a, s') => f a s'
  | (Raise e, s') => (Raise e, s')
  | (Blocked, s') => (Blocked, s')
  | (NoFuel, s') => (NoFuel, s')
  end.

Definition raise {S A} (e : exn) : py S A := λ s, (Raise e, s).
Definition block {S A} : py S A := λ s, (Blocked, s).
Definition get {S} : py S S := λ s, (Ret s, s).
Definition modify {S} (f : S → S) : py S unit := λ s, (Ret tt, f s).

(** ** Byte strings *)

Fixpoint str_take (n : N) (s : string) {struct s} : string :=
  match s with
  | EmptyString => EmptyString
  | String c s' =>
    if (n =? 0)%N then EmptyString else String c (str_take (N.pred n) s')
  end.

Fixpoint str_drop (n : N) (s : string) {struct s} : string :=
  match s with
  | EmptyString => EmptyString
  | String c s' => if (n =? 0)%N then s else str_drop (N.pred n) s'
  end.

(* the chunk size of every os.read in the source *)
Definition CHUNK : N := 8192.

(** ** reactor.py *)

(* ReactorAlarm = namedtuple("ReactorAlarm", ["deadline", "period_s", "callback"]) *)
Record ReactorAlarm (C : Type) := mkReactorAlarm {
  deadline : Z;
  period_s : option Z;         (* None for a one-shot alarm *)
  callback : C
}.
Arguments mkReactorAlarm {C} deadline period_s callback.
Arguments deadline {C} r.
Arguments period_s {C} r.
Arguments callback {C} r.

(* what _epoll_map holds: the reactor's own bound method, or a callable
   handed to register *)
Inductive handler (H : Type) : Type :=
  | ControlReady
  | Handler (h : H).
Arguments ControlReady {H}.
Arguments Handler {H} h.

Record Reactor (C H : Type) := mkReactor {
  _alarms : list (ReactorAlarm C);   (* sorted earliest deadline first *)
  _control_r : Z;
  _control_w : Z;
  _control_pipe : string;            (* written to _control_w, not read yet *)
  _epoll : gmap Z Z;                 (* interest list: descriptor, event mask *)
  _epoll_map : gmap Z (handler H);
  _done : bool
}.
Arguments mkReactor {C H}.
Arguments _alarms {C H} r.
Arguments _control_r {C H} r.
Arguments _control_w {C H} r.
Arguments _control_pipe {C H} r.
Arguments _epoll {C H} r.
Arguments _epoll_map {C H} r.
Arguments _done {C H} r.

(* what the locked part of one turn of the alarm loop decides *)
Inductive expiry (C : Type) : Type :=
  | Idle (timeout_s : option Z)              (* break *)
  | Fire (reactor_alarm : ReactorAlarm C).   (* go on to the callback *)
Arguments Idle {C} timeout_s.
Arguments Fire {C} reactor_alarm.

Module Reactor.
Section Reactor.
Context {C H : Type} `{EqDecision C}.

Definition ALARM_UPDATE : string := "ALARM_UPDATE".
Definition DONE : string := "DONE".
Definition EPOLLIN : Z := 1.
Definition EPOLLHUP : Z := 16.

Definition set_alarms (f : list (ReactorAlarm C) → list (ReactorAlarm C))
    (r : Reactor C H) : Reactor C H :=
  mkReactor (f (_alarms r)) (_control_r r) (_control_w r) (_control_pipe r)
            (_epoll r) (_epoll_map r) (_done r).
Definition set_control_pipe (f : string → string) (r : Reactor C H)
    : Reactor C H :=
  mkReactor (_alarms r) (_control_r r) (_control_w r) (f (_control_pipe r))
            (_epoll r) (_epoll_map r) (_done r).
Definition set_epoll (f : gmap Z Z → gmap Z Z) (r : Reactor C H)
    : Reactor C H :=
  mkReactor (_alarms r) (_control_r r) (_control_w r) (_control_pipe r)
            (f (_epoll r)) (_epoll_map r) (_done r).
Definition set_epoll_map
    (f : gmap Z (handler H) → gmap Z (handler H)) (r : Reactor C H)
    : Reactor C H :=
  mkReactor (_alarms r) (_control_r r) (_control_w r) (_control_pipe r)
            (_epoll r) (f (_epoll_map r)) (_done r).
Definition set_done (b : bool) (r : Reactor C H) : Reactor C H :=
  mkReactor (_alarms r) (_control_r r) (_control_w r) (_control_pipe r)
            (_epoll r) (_epoll_map r) b.

(** [a < b] on two ReactorAlarm tuples: the first field where they
    differ (by [==]) is compared with [<].  [None] against a number and
    one callable against another have no order. *)
Definition alarm_lt (a b : ReactorAlarm C) : exn + bool :=
  if decide (deadline a = deadline b) then
    if decide (period_s a = period_s b) then
      if decide (callback a = callback b) then inr false
      else inl (TypeError "'<' not supported between instances of 'function' and 'function'")
    else
      match period_s a, period_s b with
      | Some p, Some q => inr (bool_decide (p < q)%Z)
      | _, _ => inl (TypeError "'<' not supported between instances of 'NoneType' and a number")
      end
  else inr (bool_decide (deadline a < deadline b)%Z).

(* self._alarms.sort() *)
Definition sort_alarms : py (Reactor C H) unit := λ r,
  match list_sort alarm_lt (_alarms r) with
  | SortOk l => (Ret tt, set_alarms (λ _, l) r)
  | SortFail e l => (Raise e, set_alarms (λ _, l) r)
  end.

(* epoll.register: EEXIST for a descriptor already in the interest list *)
Definition epoll_register (fd event : Z) : py (Reactor C H) unit := λ r,
  match _epoll r !! fd with
  | Some _ => (Raise FileExistsError, r)
  | None => (Ret tt, set_epoll <[fd := event]> r)
  end.

(* epoll.unregister: ENOENT for a descriptor not in the interest list *)
Definition epoll_unregister (fd : Z) : py (Reactor C H) unit := λ r,
  match _epoll r !! fd with
  | Some _ => (Ret tt, set_epoll (delete fd) r)
  | None => (Raise FileNotFoundError, r)
  end.

Definition register (fd : Z) (handler : handler H) (event : Z)
    : py (Reactor C H) unit :=
  modify (set_epoll_map <[fd := handler]>);;
  epoll_register fd event.

Definition unregister (fd : Z) : py (Reactor C H) unit :=
  epoll_unregister fd;;
  r ← get;
  match _epoll_map r !! fd with
  | Some _ => modify (set_epoll_map (delete fd))
  | None => raise (KeyError (pretty fd))
  end.

(* os.write(self._control_w, message) *)
Definition _signal (message : string) : py (Reactor C H) unit :=
  modify (set_control_pipe (λ buf, buf +:+ message)).

(* os.read(self._control_r, 8192); the write end stays open for the
   life of the reactor, so reading an empty pipe does not return *)
Definition _control_ready (event : Z) : py (Reactor C H) unit :=
  r ← get;
  match _control_pipe r with
  | EmptyString => block
  | _ => modify (set_control_pipe (str_drop CHUNK))
  end.

Definition alarm (deadline : Z) (callback : C)
    : py (Reactor C H) (ReactorAlarm C) :=
  let reactor_alarm := mkReactorAlarm deadline None callback in
  modify (set_alarms (λ l, l ++ [reactor_alarm]));;
  sort_alarms;;
  _signal ALARM_UPDATE;;
  mret reactor_alarm.

(* [now] is what time.monotonic() returns to this call *)
Definition periodic_alarm (now : Z) (period_s : Z) (callback : C)
    : py (Reactor C H) (ReactorAlarm C) :=
  let deadline := (now + period_s)%Z in
  let reactor_alarm := mkReactorAlarm deadline (Some period_s) callback in
  modify (set_alarms (λ l, l ++ [reactor_alarm]));;
  sort_alarms;;
  _signal ALARM_UPDATE;;
  mret reactor_alarm.

Definition close : py (Reactor C H) unit :=
  modify (set_done true);;
  _signal DONE.

(* __init__, given the pair os.pipe() returned *)
Definition init (control_r control_w : Z) : res unit * Reactor C H :=
  register control_r ControlReady (Z.lor EPOLLIN EPOLLHUP)
    (mkReactor [] control_r control_w EmptyString ∅ ∅ false).

(** The part of one turn of [_run]'s inner loop that runs under
    [_alarms_lock]; [now] is the clock reading taken there (the clock is
    read only when the list is not empty). *)
Definition expire (now : Z) : py (Reactor C H) (expiry C) := λ r,
  match _alarms r with
  | [] => (Ret (Idle None), r)
  | reactor_alarm :: tl =>
    if decide (deadline reactor_alarm > now)%Z then
      (Ret (Idle (Some (deadline reactor_alarm - now)%Z)), r)
    else
      match period_s reactor_alarm with
      | None => (Ret (Fire reactor_alarm), set_alarms (λ _, tl) r)
      | Some p =>
        (modify (set_alarms (λ _,
           mkReactorAlarm (deadline reactor_alarm + p)%Z (Some p)
                          (callback reactor_alarm) :: tl));;
         sort_alarms;;
         mret (Fire reactor_alarm)) r
      end
  end.
End Reactor.

(** *** The run loop

  The loop runs in a program whose whole state is [W]; the reactor is
  one part of it, the callbacks may read and write all of it.  [print]
  stands for the writes to the process's own stdout and stderr. *)
Section run.
Context {C H W : Type} `{EqDecision C}.
Variable reactor_of : W → Reactor C H.
Variable with_reactor : Reactor C H → W → W.
Variable print : string → W → W.
Variable call_callback : C → py W unit.      (* reactor_alarm.callback() *)
Variable call_handler : H → Z → py W unit.   (* handler(event) *)

Definition on_reactor {A} (m : py (Reactor C H) A) : py W A := λ w,
  let '(x, r) := m (reactor_of w) in (x, with_reactor r w).

(* print("Ignoring %s (%s)" % (e, type(e))); traceback.print_exception(e) *)
Definition ignoring (e : exn) (w : W) : W :=
  print (format_exception e)
    (print ("Ignoring " +:+ exn_text e +:+ " (<class '" +:+ exn_class e +:+ "'>)") w).

(* try: m  except Exception as e: ... *)
Definition try_except (m : py W unit) : py W unit := λ w,
  match m w with
  | (Raise e, w') =>
    if exn_is_Exception e then (Ret tt, ignoring e w') else (Raise e, w')
  | other => other
  end.

(** The inner [while True] of [_run].  Every turn that finds an alarm
    reads the clock once: [clock] holds the readings to come, and the
    loop is still running when they are used up. *)
Fixpoint drain (clock : list Z) : py W (option Z) := λ w,
  match clock with
  | [] =>
    match _alarms (reactor_of w) with
    | [] => (Ret None, w)
    | _ => (NoFuel, w)
    end
  | now :: clock' =>
    (x ← on_reactor (expire now);
     match x with
     | Idle timeout_s => mret timeout_s
     | Fire reactor_alarm =>
       try_except (call_callback (callback reactor_alarm));;
       drain clock'
     end) w
  end.

(* handler = self._epoll_map[fileno]; handler(event) *)
Definition call_ready (fileno event : Z) : py W unit :=
  w ← get;
  match _epoll_map (reactor_of w) !! fileno with
  | None => raise (KeyError (pretty fileno))
  | Some ControlReady => on_reactor (_control_ready event)
  | Some (Handler h) => call_handler h event
  end.

(* for fileno, event in events: ... *)
Fixpoint dispatch (events : list (Z * Z)) : py W unit :=
  match events with
  | [] => mret tt
  | (fileno, event) :: events' =>
    try_except (call_ready fileno event);;
    dispatch events'
  end.

(** [_run].  Each turn of the outer loop is given the clock readings
    of its alarm loop and the list that [epoll.poll] returns to it. *)
Fixpoint _run (turns : list (list Z * list (Z * Z))) : py W unit := λ w,
  if _done (reactor_of w) then (Ret tt, w)
  else
    match turns with
    | [] => (NoFuel, w)
    | (clock, events) :: turns' =>
      (timeout_s ← drain clock;
       dispatch events;;
       _run turns') w
    end.
End run.

(** *** Alarm traffic

  The alarm list is reached from any thread, one holder of
  [_alarms_lock] at a time.  A history is a sequence of such holdings:
  calls of [alarm] and [periodic_alarm] (from anywhere, a callback
  included) and turns of the reactor thread's alarm loop.  [fired]
  lists the alarms whose callback the loop went on to call, as they
  were when taken from the head of the list. *)
Section traffic.
Context {C H : Type} `{EqDecision C}.

Inductive holding : Type :=
  | Call_alarm (deadline : Z) (callback : C)
  | Call_periodic_alarm (now period_s : Z) (callback : C)
  | Turn (now : Z).

Record history := mkHistory {
  reactor_now : Reactor C H;
  fired : list (ReactorAlarm C);
  crashed : bool                   (* an exception has left _run *)
}.

Definition hold (h : history) (x : holding) : history :=
  match x with
  | Call_alarm d cb =>
    mkHistory (alarm d cb (reactor_now h)).2 (fired h) (crashed h)
  | Call_periodic_alarm now p cb =>
    mkHistory (periodic_alarm now p cb (reactor_now h)).2 (fired h) (crashed h)
  | Turn now =>
    if crashed h then h
    else
      match expire now (reactor_now h) with
      | (Ret (Fire a), r) => mkHistory r (fired h ++ [a]) false
      | (Ret (Idle _), r) => mkHistory r (fired h) false
      | (_, r) => mkHistory r (fired h) true
      end
  end.

Definition unfold_history (h : history) (xs : list holding) : history :=
  foldl hold h xs.

(* the callback a holding brings into the list, if any *)
Definition brings (x : holding) : option C :=
  match x with
  | Call_alarm _ cb | Call_periodic_alarm _ _ cb => Some cb
  | Turn _ => None
  end.

Definition deadline_le (a b : ReactorAlarm C) : Prop :=
  (deadline a ≤ deadline b)%Z.

(* "sorted earliest deadline first" *)
Definition earliest_first (l : list (ReactorAlarm C)) : Prop :=
  Sorted deadline_le l.
End traffic.
End Reactor.


(** ** The operating system, as far as the runner meets it

    Descriptors of this process, pipes, and child processes.  A pipe
    delivers end-of-file once it is empty and no write end is open, in
    this process or in a child. *)

Inductive fd_kind : Type :=
  | PipeR (p : Z)               (* read end of pipe [p] *)
  | PipeW (p : Z)               (* write end of pipe [p] *)
  | OtherFd.

Record pipe := mkPipe {
  pipe_buf : string;            (* written and not read yet *)
  pipe_writers : nat            (* open write ends *)
}.

Inductive proc_state : Type :=
  | Running (heeds_SIGTERM : bool)
  | Exited.

Record proc := mkProc {
  proc_state_of : proc_state;
  proc_stdout : Z;              (* the pipes its stdout and stderr write to *)
  proc_stderr : Z
}.

(* what subprocess.Popen makes of a command line, an environment and a
   working directory *)
Inductive popen_outcome : Type :=
  | Spawns (heeds_SIGTERM : bool)
  | Fails (e : exn).

Record OS := mkOS {
  os_fds : gmap Z fd_kind;
  os_pipes : gmap Z pipe;
  os_procs : gmap Z proc;
  os_environ : gmap string string;
  os_exec : list string → gmap string string → option string → popen_outcome
}.

Module os.
Fixpoint first_free {V} (candidates : list Z) (m : gmap Z V) : Z :=
  match candidates with
  | [] => 0
  | n :: rest =>
    match m !! n with
    | None => n
    | Some _ => first_free rest m
    end
  end.

(* the lowest number not in use *)
Definition lowest_free {V} (m : gmap Z V) : Z :=
  first_free (Z.of_nat <$> seq 0 (S (size m))) m.

Definition set_fds (f : gmap Z fd_kind → gmap Z fd_kind) (o : OS) : OS :=
  mkOS (f (os_fds o)) (os_pipes o) (os_procs o) (os_environ o) (os_exec o).
Definition set_pipes (f : gmap Z pipe → gmap Z pipe) (o : OS) : OS :=
  mkOS (os_fds o) (f (os_pipes o)) (os_procs o) (os_environ o) (os_exec o).
Definition set_procs (f : gmap Z proc → gmap Z proc) (o : OS) : OS :=
  mkOS (os_fds o) (os_pipes o) (f (os_procs o)) (os_environ o) (os_exec o).

Definition add_writer (pp : pipe) : pipe :=
  mkPipe (pipe_buf pp) (S (pipe_writers pp)).
Definition drop_writer (pp : pipe) : pipe :=
  mkPipe (pipe_buf pp) (pred (pipe_writers pp)).

(* os.pipe() *)
Definition pipe : py OS (Z * Z) := λ o,
  let p := lowest_free (os_pipes o) in
  let r := lowest_free (os_fds o) in
  let fds := <[r := PipeR p]> (os_fds o) in
  let w := lowest_free fds in
  (Ret (r, w),
   set_pipes <[p := mkPipe EmptyString 1]> (set_fds (λ _, <[w := PipeW p]> fds) o)).

(* os.write(fd, data) *)
Definition write (fd : Z) (data : string) : py OS unit := λ o,
  match os_fds o !! fd with
  | Some (PipeW p) =>
    (Ret tt,
     set_pipes (alter (λ pp, mkPipe (pipe_buf pp +:+ data) (pipe_writers pp)) p) o)
  | _ => (Raise BadFileDescriptor, o)
  end.

(* os.read(fd, n) *)
Definition read (fd : Z) (n : N) : py OS string := λ o,
  match os_fds o !! fd with
  | Some (PipeR p) =>
    match os_pipes o !! p with
    | Some pp =>
      match pipe_buf pp, pipe_writers pp with
      | EmptyString, 0 => (Ret EmptyString, o)
      | EmptyString, S _ => (Blocked, o)
      | buf, _ =>
        (Ret (str_take n buf),
         set_pipes <[p := mkPipe (str_drop n buf) (pipe_writers pp)]> o)
      end
    | None => (Raise BadFileDescriptor, o)
    end
  | _ => (Raise BadFileDescriptor, o)
  end.

(* os.close(fd) *)
Definition close (fd : Z) : py OS unit := λ o,
  match os_fds o !! fd with
  | Some (PipeW p) =>
    (Ret tt, set_pipes (alter drop_writer p) (set_fds (delete fd) o))
  | Some _ => (Ret tt, set_fds (delete fd) o)
  | None => (Raise BadFileDescriptor, o)
  end.

(* a child that ends lets go of its two write ends *)
Definition reap (pid : Z) (o : OS) : OS :=
  match os_procs o !! pid with
  | Some (mkProc (Running _) out err) =>
    set_procs <[pid := mkProc Exited out err]>
      (set_pipes (λ ps, alter drop_writer err (alter drop_writer out ps)) o)
  | _ => o
  end.

(* subprocess.Popen(args=command, env=env, stdout=stdout_w,
   stderr=stderr_w, cwd=cwd, bufsize=0) *)
Definition Popen (command : list string) (env : gmap string string)
    (stdout_w stderr_w : Z) (cwd : option string) : py OS Z := λ o,
  match os_exec o command env cwd with
  | Fails e => (Raise e, o)
  | Spawns heeds =>
    match os_fds o !! stdout_w, os_fds o !! stderr_w with
    | Some (PipeW out), Some (PipeW err) =>
      let pid := lowest_free (os_procs o) in
      (Ret pid,
       set_procs <[pid := mkProc (Running heeds) out err]>
         (set_pipes (λ ps, alter add_writer err (alter add_writer out ps)) o))
    | _, _ => (Raise BadFileDescriptor, o)
    end
  end.

(* process.terminate(): SIGTERM, unless the child has ended already *)
Definition terminate (pid : Z) : py OS unit := λ o,
  match os_procs o !! pid with
  | Some (mkProc (Running true) _ _) => (Ret tt, reap pid o)
  | _ => (Ret tt, o)
  end.

(* process.communicate(timeout=20) with no pipe of its own to read:
   waits for the child to end *)
Definition communicate (pid : Z) : py OS unit := λ o,
  match os_procs o !! pid with
  | Some (mkProc (Running _) _ _) => (Raise TimeoutExpired, o)
  | _ => (Ret tt, o)
  end.
End os.

(** ** controls.py *)

(* the dict that update and request return *)
Record reply := mkReply {
  control : string;
  value : bool;
  enable : bool
}.

(* what goes out with flask_socketio.emit(event, payload, broadcast=True) *)
Inductive payload : Type :=
  | Reset (control : string)                  (* {"control": ...} *)
  | Chunk (control : string) (value : string) (* {"control": ..., "value": ...} *)
  | Value (r : reply).

(* the two bound methods the runner registers with the reactor *)
Inductive method : Type :=
  | Runner_stdout
  | Runner_stderr.

(* set_control keeps the control and a copy of its name; the name never
   changes, and the runner reads it from the control here *)
Record Runner := mkRunner {
  _command : list string;
  _process : option Z;
  _env_update : gmap string string;
  _cwd : option string;
  _stdout_r : option Z;         (* None: the attribute is not set yet *)
  _stdout_w : option Z;
  _stderr_r : option Z;
  _stderr_w : option Z
}.

Record Checkbox := mkCheckbox {
  _label : string;
  _control_name : string;
  _value : bool
}.

(** One checkbox with its runner, as [checkbox_command] wires them, the
    reactor they share, and what they send out. *)
Record World := mkWorld {
  runner : Runner;
  checkbox : Checkbox;
  reactor : Reactor Empty_set method;
  opsys : OS;
  emitted : list (string * payload);     (* broadcasts, oldest first *)
  printed : list string                  (* lines printed, oldest first *)
}.

Definition set_runner (f : Runner → Runner) (w : World) : World :=
  mkWorld (f (runner w)) (checkbox w) (reactor w) (opsys w) (emitted w) (printed w).
Definition set_checkbox (f : Checkbox → Checkbox) (w : World) : World :=
  mkWorld (runner w) (f (checkbox w)) (reactor w) (opsys w) (emitted w) (printed w).
Definition set_reactor (r : Reactor Empty_set method) (w : World) : World :=
  mkWorld (runner w) (checkbox w) r (opsys w) (emitted w) (printed w).
Definition set_opsys (o : OS) (w : World) : World :=
  mkWorld (runner w) (checkbox w) (reactor w) o (emitted w) (printed w).

Definition in_reactor {A} (m : py (Reactor Empty_set method) A) : py World A :=
  Reactor.on_reactor reactor set_reactor m.
Definition in_os {A} (m : py OS A) : py World A := λ w,
  let '(x, o) := m (opsys w) in (x, set_opsys o w).

Definition print_line (line : string) (w : World) : World :=
  mkWorld (runner w) (checkbox w) (reactor w) (opsys w) (emitted w)
          (printed w ++ [line]).
Definition print (line : string) : py World unit := modify (print_line line).

Definition emit (event : string) (p : payload) : py World unit :=
  modify (λ w, mkWorld (runner w) (checkbox w) (reactor w) (opsys w)
                       (emitted w ++ [(event, p)]) (printed w)).

(* "%s" % (command,) for a list of strings *)
Definition repr_command (command : list string) : string :=
  "[" +:+ String.concat ", " ((λ s, "'" +:+ s +:+ "'") <$> command) +:+ "]".

(* between double quotes *)
Definition quoted (s : string) : string :=
  String "034"%char (s +:+ String "034"%char EmptyString).

(* reading an attribute of self *)
Definition attr (name : string) (field : Runner → option Z) : py World Z :=
  w ← get;
  match field (runner w) with
  | Some v => mret v
  | None => raise (AttributeError ("'Runner' object has no attribute '" +:+ name +:+ "'"))
  end.

Module Runner.
Section Runner.
(* self._control.stopped *)
Variable stopped : py World unit.

Definition set_process (p : option Z) (r : Runner) : Runner :=
  mkRunner (_command r) p (_env_update r) (_cwd r)
           (_stdout_r r) (_stdout_w r) (_stderr_r r) (_stderr_w r).
Definition set_stdout_r (v : Z) (r : Runner) : Runner :=
  mkRunner (_command r) (_process r) (_env_update r) (_cwd r)
           (Some v) (_stdout_w r) (_stderr_r r) (_stderr_w r).
Definition set_stdout_w (v : Z) (r : Runner) : Runner :=
  mkRunner (_command r) (_process r) (_env_update r) (_cwd r)
           (_stdout_r r) (Some v) (_stderr_r r) (_stderr_w r).
Definition set_stderr_r (v : Z) (r : Runner) : Runner :=
  mkRunner (_command r) (_process r) (_env_update r) (_cwd r)
           (_stdout_r r) (_stdout_w r) (Some v) (_stderr_w r).
Definition set_stderr_w (v : Z) (r : Runner) : Runner :=
  mkRunner (_command r) (_process r) (_env_update r) (_cwd r)
           (_stdout_r r) (_stdout_w r) (_stderr_r r) (Some v).

Definition event_mask : Z := Z.lor Reactor.EPOLLIN Reactor.EPOLLHUP.

Definition _start : py World unit :=
  w ← get;
  print ("Starting " +:+ quoted (repr_command (_command (runner w))));;
  (* a copy of the current environment, updated according to our prefs *)
  let env := _env_update (runner w) ∪ os_environ (opsys w) in
  '(r, w_) ← in_os os.pipe;
  modify (set_runner (set_stdout_r r));;
  modify (set_runner (set_stdout_w w_));;
  '(r, w_) ← in_os os.pipe;
  modify (set_runner (set_stderr_r r));;
  modify (set_runner (set_stderr_w w_));;
  stdout_r ← attr "_stdout_r" _stdout_r;
  in_reactor (Reactor.register stdout_r (Handler Runner_stdout) event_mask);;
  stderr_r ← attr "_stderr_r" _stderr_r;
  in_reactor (Reactor.register stderr_r (Handler Runner_stderr) event_mask);;
  stdout_w ← attr "_stdout_w" _stdout_w;
  stderr_w ← attr "_stderr_w" _stderr_w;
  (λ w,
     match in_os (os.Popen (_command (runner w)) env stdout_w stderr_w
                              (_cwd (runner w))) w with
     | (Ret pid, w') => (Ret tt, set_runner (set_process (Some pid)) w')
     | (Raise e, w') =>
       if exn_is_Exception e then
         (let l := format_exception e in
          stderr_w ← attr "_stderr_w" _stderr_w;
          in_os (os.write stderr_w l);;
          print l) w'
       else (Raise e, w')
     | (Blocked, w') => (Blocked, w')
     | (NoFuel, w') => (NoFuel, w')
     end);;
  stdout_w ← attr "_stdout_w" _stdout_w;
  in_os (os.close stdout_w);;
  modify (set_runner (set_stdout_w (-1)%Z));;
  stderr_w ← attr "_stderr_w" _stderr_w;
  in_os (os.close stderr_w);;
  modify (set_runner (set_stderr_w (-1)%Z)).

Definition start : py World unit :=
  w ← get;
  match _process (runner w) with
  | None =>
    (* Clear the stdout/stderr displayed on the page *)
    emit (_control_name (checkbox w) +:+ "-reset")
         (Reset (_control_name (checkbox w)));;
    _start
  | Some _ =>
    print ("Already started " +:+ quoted (repr_command (_command (runner w)))
           +:+ " -- ignoring")
  end.

Definition _stop : py World unit :=
  w ← get;
  let process := _process (runner w) in
  modify (set_runner (set_process None));;
  print ("Stopping " +:+ quoted (repr_command (_command (runner w))));;
  match process with
  | None => raise (AttributeError "'NoneType' object has no attribute 'terminate'")
  | Some process =>
    in_os (os.terminate process);;
    in_os (os.communicate process);;
    stdout_w ← attr "_stdout_w" _stdout_w;
    (if decide (stdout_w ≠ (-1)%Z) then
       in_os (os.close stdout_w);;
       modify (set_runner (set_stdout_w (-1)%Z))
     else mret tt);;
    stderr_w ← attr "_stderr_w" _stderr_w;
    (if decide (stderr_w ≠ (-1)%Z) then
       in_os (os.close stderr_w);;
       modify (set_runner (set_stderr_w (-1)%Z))
     else mret tt);;
    stopped
  end.

Definition stop : py World unit :=
  w ← get;
  match _process (runner w) with
  | Some _ => _stop
  | None =>
    print ("Not currently running " +:+ quoted (repr_command (_command (runner w)))
           +:+ " -- ignoring")
  end.

Definition update (state : bool) : py World bool :=
  (if state then start else stop);;
  w ← get;
  mret (bool_decide (_process (runner w) ≠ None)).

Definition stderr (event : Z) : py World unit :=
  stderr_r ← attr "_stderr_r" _stderr_r;
  value ← in_os (os.read stderr_r CHUNK);
  match value with
  | EmptyString =>
    print "stderr closed.";;
    stderr_r ← attr "_stderr_r" _stderr_r;
    in_reactor (Reactor.unregister stderr_r);;
    stderr_r ← attr "_stderr_r" _stderr_r;
    in_os (os.close stderr_r);;
    w ← get;
    match _process (runner w) with
    | Some _ => stop
    | None => mret tt
    end
  | _ =>
    w ← get;
    emit (_control_name (checkbox w) +:+ "-stderr")
         (Chunk (_control_name (checkbox w)) value)
  end.

Definition stdout (event : Z) : py World unit :=
  stdout_r ← attr "_stdout_r" _stdout_r;
  value ← in_os (os.read stdout_r CHUNK);
  match value with
  | EmptyString =>
    print "stdout closed.";;
    stdout_r ← attr "_stdout_r" _stdout_r;
    in_reactor (Reactor.unregister stdout_r);;
    stdout_r ← attr "_stdout_r" _stdout_r;
    in_os (os.close stdout_r);;
    w ← get;
    match _process (runner w) with
    | Some _ => stop
    | None => mret tt
    end
  | _ =>
    w ← get;
    emit (_control_name (checkbox w) +:+ "-stdout")
         (Chunk (_control_name (checkbox w)) value)
  end.
End Runner.
End Runner.

Module Checkbox.
Section Checkbox.
(* self._update, the callable given to the constructor *)
Variable _update : bool → py World bool.

Definition set_value (v : bool) (c : Checkbox) : Checkbox :=
  mkCheckbox (_label c) (_control_name c) v.

Definition update (control_name : string) (value : bool) : py World reply :=
  r ← _update value;
  modify (set_checkbox (set_value r));;
  w ← get;
  mret (mkReply control_name (_value (checkbox w)) true).

Definition request (control_name : string) : py World reply :=
  w ← get;
  mret (mkReply control_name (_value (checkbox w)) true).

Definition stopped : py World unit :=
  w ← get;
  reply ← update (_control_name (checkbox w)) false;
  w ← get;
  emit (_control_name (checkbox w) +:+ "-value") (Value reply).
End Checkbox.
End Checkbox.

(** ** holoscan_test_controls.py: [checkbox_command]

    [control = Checkbox(..., update=runner.update)] and
    [runner.set_control(control)]: the runner's [update] is the
    checkbox's [_update], the checkbox's [stopped] is what the runner
    calls from [_stop].  [depth] is the nesting of calls the interpreter
    allows from one to the other. *)

Fixpoint runner_update (depth : nat) : bool → py World bool :=
  match depth with
  | 0 => λ _ w, (NoFuel, w)
  | S depth' => Runner.update (Checkbox.stopped (runner_update depth'))
  end.

Definition control_stopped (depth : nat) : py World unit :=
  Checkbox.stopped (runner_update depth).
Definition control_update (depth : nat) : string → bool → py World reply :=
  Checkbox.update (runner_update depth).
Definition control_request : string → py World reply :=
  Checkbox.request.
Definition runner_start : py World unit := Runner.start.
Definition runner_stop (depth : nat) : py World unit :=
  Runner.stop (control_stopped depth).

(* calling what the reactor holds for a ready descriptor *)
Definition call_method (depth : nat) (m : method) (event : Z) : py World unit :=
  match m with
  | Runner_stdout => Runner.stdout (control_stopped depth) event
  | Runner_stderr => Runner.stderr (control_stopped depth) event
  end.

(* the body of the loop over the ready descriptors, in this world *)
Definition dispatch_ready (depth : nat) (events : list (Z * Z)) : py World unit :=
  Reactor.dispatch reactor set_reactor print_line (call_method depth) events.

(** What [checkbox_command(control_name, label, command)] builds, put
    next to the reactor and the operating system it runs on ([command] is
    the command line already split). *)
Definition checkbox_command (control_name label : string)
    (command : list string) (cwd : option string)
    (env_update : gmap string string)
    (r : Reactor Empty_set method) (o : OS) : World :=
  mkWorld (mkRunner command None env_update cwd None None None None)
          (mkCheckbox label control_name false) r o [] [].

(** The control "enable_iperf3" of the source at start-up: descriptors 0
    to 4 are taken (standard streams, the reactor's control pipe), no
    child yet; [outcome] is what spawning the command will lead to. *)
Definition enable_iperf3 (outcome : popen_outcome) : World :=
  checkbox_command "enable_iperf3" "Run iperf server" ["iperf3"; "-s"] None ∅
    (Reactor.init 3 4).2
    (mkOS (list_to_map [(0, OtherFd); (1, OtherFd); (2, OtherFd);
                        (3, OtherFd); (4, OtherFd)]%Z)
          ∅ ∅ ∅ (λ _ _ _, outcome)).

(* the read end a bound method reads from, and what it prints at
   end-of-file *)
Definition read_end (m : method) : Runner → option Z :=
  match m with
  | Runner_stdout => _stdout_r
  | Runner_stderr => _stderr_r
  end.
Definition closed_line (m : method) : string :=
  match m with
  | Runner_stdout => "stdout closed."
  | Runner_stderr => "stderr closed."
  end.

(** The pipe read through [fd] by the method [m] has reached end-of-file
    (it is empty and no write end is open), and [fd] is still registered
    with the reactor for [m]. *)
Definition eof_at (m : method) (fd : Z) (w : World) : Prop :=
  read_end m (runner w) = Some fd ∧
  (∃ p, os_fds (opsys w) !! fd = Some (PipeR p) ∧
        os_pipes (opsys w) !! p = Some (mkPipe EmptyString 0)) ∧
  is_Some (_epoll (reactor w) !! fd) ∧
  _epoll_map (reactor w) !! fd = Some (Handler m).

(** The runner still holds its child [pid], which has ended, and has
    closed its own copies of the write ends (as [_start] does). *)
Definition child_ended (pid : Z) (w : World) : Prop :=
  _process (runner w) = Some pid ∧
  (∃ out err, os_procs (opsys w) !! pid = Some (mkProc Exited out err)) ∧
  _stdout_w (runner w) = Some (-1)%Z ∧
  _stderr_w (runner w) = Some (-1)%Z.

(* what spawning the runner's command leads to in this world *)
Definition spawn_outcome (w : World) : popen_outcome :=
  os_exec (opsys w) (_command (runner w))
          (_env_update (runner w) ∪ os_environ (opsys w)) (_cwd (runner w)).

(* only open descriptors are in the interest list of the reactor *)
Definition registered_are_open (w : World) : Prop :=
  ∀ fd, is_Some (_epoll (reactor w) !! fd) → is_Some (os_fds (opsys w) !! fd).

(** The child [pid] ends by itself. *)
Definition child_exits (pid : Z) (w : World) : World :=
  set_opsys (os.reap pid (opsys w)) w.

(** *** Calls on a reactor

  What the threads of the program and the handlers do to a reactor, one
  call at a time; a call that raises leaves the reactor as it was when
  the exception left the method. *)
Section calls.
Context {C H : Type} `{EqDecision C}.

Inductive reactor_call : Type :=
  | Do_register (fd : Z) (handler : handler H) (event : Z)
  | Do_unregister (fd : Z)
  | Do_alarm (deadline : Z) (callback : C)
  | Do_periodic_alarm (now period_s : Z) (callback : C)
  | Do_close
  | Do_control_ready (event : Z)
  | Do_expire (now : Z).

Definition after_call (r : Reactor C H) (c : reactor_call) : Reactor C H :=
  match c with
  | Do_register fd handler event => (Reactor.register fd handler event r).2
  | Do_unregister fd => (Reactor.unregister fd r).2
  | Do_alarm deadline callback => (Reactor.alarm deadline callback r).2
  | Do_periodic_alarm now period_s callback =>
    (Reactor.periodic_alarm now period_s callback r).2
  | Do_close => (Reactor.close r).2
  | Do_control_ready event => (Reactor._control_ready event r).2
  | Do_expire now => (Reactor.expire now r).2
  end.

Definition after_calls (r : Reactor C H) (cs : list reactor_call)
    : Reactor C H :=
  foldl after_call r cs.

(* every descriptor of the interest list has a handler in _epoll_map *)
Definition handlers_cover_interest (r : Reactor C H) : Prop :=
  ∀ fd, is_Some (_epoll r !! fd) → is_Some (_epoll_map r !! fd).
End calls.

(** ** More of controls.py *)

(* the suffix of the event a bound method emits its chunks on *)
Definition chunk_suffix (m : method) : string :=
  match m with
  | Runner_stdout => "-stdout"
  | Runner_stderr => "-stderr"
  end.

(* the text that has gone out on [event], chunk after chunk *)
Fixpoint forwarded (event : string) (emitted : list (string * payload))
    : string :=
  match emitted with
  | [] => EmptyString
  | (ev, Chunk _ value) :: rest =>
    if decide (ev = event) then value +:+ forwarded event rest
    else forwarded event rest
  | _ :: rest => forwarded event rest
  end.

(** The pipe behind [fd], which the method [m] reads and the reactor
    knows as [m]'s, holds [text]. *)
Definition holds_text (m : method) (fd : Z) (text : string) (w : World)
    : Prop :=
  read_end m (runner w) = Some fd ∧
  (∃ p n, os_fds (opsys w) !! fd = Some (PipeR p) ∧
          os_pipes (opsys w) !! p = Some (mkPipe text n)) ∧
  _epoll_map (reactor w) !! fd = Some (Handler m).

(** What happens to a checkbox and its runner, one event at a time: the
    page asks for an update or for the value, the reactor thread
    dispatches what a poll returned, a child ends by itself. *)
Inductive occurrence : Type :=
  | Page_update (name : string) (state : bool)
  | Page_request (name : string)
  | Poll_returns (events : list (Z * Z))
  | Child_exits (pid : Z).

Definition after_occurrence (depth : nat) (w : World) (x : occurrence)
    : World :=
  match x with
  | Page_update name state => (control_update depth name state w).2
  | Page_request name => (control_request name w).2
  | Poll_returns events => (dispatch_ready depth events w).2
  | Child_exits pid => child_exits pid w
  end.

(** The runner is settled: what the reactor watches is open, and a
    runner that holds a process has closed its own write ends. *)
Definition settled (w : World) : Prop :=
  registered_are_open w ∧
  (_process (runner w) ≠ None →
   _stdout_w (runner w) = Some (-1)%Z ∧ _stderr_w (runner w) = Some (-1)%Z).

(** ** html_render.py

    Content is a tree: a list whose elements are strings (anything
    else is shown by [str]), lists again, or objects with an [html]
    method, which stand for the list that method returns. *)

Set Warnings "-register-all".
Inductive item : Type :=
  | Str (s : string)
  | Lst (l : list item)
  | Obj (html : list item).
Set Warnings "register-all".

(* a dict from strings, in insertion order *)
Definition dict (V : Type) : Type := list (string * V).

(* d[k] = v *)
Fixpoint dict_set {V} (k : string) (v : V) (d : dict V) : dict V :=
  match d with
  | [] => [(k, v)]
  | (k', v') :: d' =>
    if decide (k' = k) then (k, v) :: d' else (k', v') :: dict_set k v d'
  end.

(* d.update(other) *)
Definition dict_update {V} (d other : dict V) : dict V :=
  foldl (λ d '(k, v), dict_set k v d) d other.

Module html_render.

(* html.escape(s): the characters that end text or an attribute value *)
Definition escape_char (c : ascii) : string :=
  if decide (c = "&"%char) then "&amp;"
  else if decide (c = "<"%char) then "&lt;"
  else if decide (c = ">"%char) then "&gt;"
  else if decide (c = "034"%char) then "&quot;"
  else if decide (c = "'"%char) then "&#x27;"
  else String c EmptyString.

Fixpoint escape (s : string) : string :=
  match s with
  | EmptyString => EmptyString
  | String c s' => escape_char c +:+ escape s'
  end.

(* the body of the loop of flatten, for one element *)
Fixpoint flatten_element (r : list string) (element : item)
    : list string :=
  match element with
  | Obj v => foldl flatten_element r v
  | Lst l => foldl flatten_element r l
  | Str s => r ++ [s]
  end.

Definition flatten (r : list string) (tree : list item) : list string :=
  foldl flatten_element r tree.

Definition render (tree : list item) : string :=
  String.concat EmptyString (flatten [] tree).

Definition attribute (kv : string * option string) : item :=
  match kv with
  | (k, None) => Str (" " +:+ k)
  | (k, Some v) => Str (" " +:+ k +:+ "=" +:+ quoted (escape v))
  end.

Definition tag (tag_name : string) (style : option (dict string))
    (attributes : option (dict (option string))) : list item :=
  let r := [Str "<"; Str tag_name] in
  let r :=
    match attributes with
    | Some (_ :: _ as attributes) => r ++ (attribute <$> attributes)
    | _ => r
    end in
  let r :=
    match style with
    | Some (_ :: _ as style) =>
      r ++ [Str (" style=" +:+ String "034"%char EmptyString);
            Str (String.concat ";" ((λ '(k, v), k +:+ ":" +:+ v) <$> style));
            Str (String "034"%char EmptyString)]
    | _ => r
    end in
  r ++ [Str ">"].

Definition link (content : item) (url : string)
    (style : option (dict string)) (attributes : option (dict (option string)))
    : list item :=
  let href := match attributes with Some a => a | None => [] end in
  let href := dict_set "href" (Some url) href in
  [Lst (tag "a" style (Some href)); content; Str "</a>"].

Definition paragraph (content : item) (style : option (dict string))
    : list item :=
  [Lst (tag "p" style None); content; Str "</p>"].

Definition horizontal_rule : item := Str "<hr/>".

Definition pre (content : item) (style : option (dict string))
    : list item :=
  [Lst (tag "pre" style None); content; Str "</pre>"].

Definition italic (content : item) : list item :=
  [Str "<i>"; content; Str "</i>"].

Definition bold (content : item) : list item :=
  [Str "<b>"; content; Str "</b>"].

Definition default_html_attributes : dict (option string) :=
  [("lang", Some "en-US")].

Definition html_start (attributes : dict (option string)) : list item :=
  [Lst (tag "html" None (Some attributes))].

Definition html_end : list item := [Str "</html>"].

Definition html (content : item) (attributes : dict (option string))
    : list item :=
  [Lst (html_start attributes); content; Lst html_end].

Definition body_start (attributes : dict (option string)) : list item :=
  [Lst (tag "body" None (Some attributes))].

Definition body_end : list item := [Str "</body>"].

Definition body (content : item) (attributes : dict (option string))
    : list item :=
  [Lst (body_start attributes); content; Lst body_end].

Definition ul (items : list item) : list item :=
  let r := [Str "<ul>"] in
  let r := foldl (λ r i, r ++ [Lst [Str "<li>"; i; Str "</li>"]]) r items in
  r ++ [Str "</ul>"].

(* [level] is a number, shown in decimal by "%s" *)
Definition header (level : N) (content : item) (style : option (dict string))
    (attributes : option (dict (option string))) : list item :=
  [Lst (tag ("h" +:+ pretty level) style attributes);
   content;
   Str ("</h" +:+ pretty level +:+ ">")].

Definition default_col_style : dict string :=
  [("border", "1px solid #CCCCCC");
   ("padding-left", "5px");
   ("padding-right", "5px")].

Definition default_table_style : dict string :=
  [("border-collapse", "collapse")].

Definition table (rows : list (list item)) (style col_style : dict string)
    (attributes : option (dict (option string))) : list item :=
  let r :=
    foldl (λ r cols,
             let this_row :=
               (λ c, Lst [Lst (tag "td" (Some col_style) None); c; Str "</td>"])
                 <$> cols in
             r ++ [Lst [Lst (tag "tr" None None); Lst this_row; Str "</tr>"]])
          [] rows in
  [Lst (tag "table" (Some style) attributes); Lst r; Str "</table>"].

Definition div (content : item) (style : option (dict string))
    (attributes : option (dict (option string))) : list item :=
  [Lst (tag "div" style attributes); content; Str "</div>"].

Definition script (content : item) (style : option (dict string))
    (attributes : option (dict (option string))) : list item :=
  [Lst (tag "script" style attributes); content; Str "</script>"].

Definition javascript (content : item) (style : option (dict string))
    (attributes : dict (option string)) : list item :=
  let u := [("type", Some "text/javascript"); ("charset", Some "utf-8")] in
  let u := dict_update u attributes in
  script content style (Some u).

Definition checkbox (content : item) (style : option (dict string))
    (attributes : dict (option string)) : list item :=
  let t := [("type", Some "checkbox")] in
  let t := dict_update t attributes in
  [Lst (tag "label" None None);
   Lst (tag "input" style (Some t));
   content;
   Str "</label>"].

Definition head (content : item) : list item :=
  [Lst (tag "head" None None); content; Str "</head>"].

Definition style (element : string) (options : dict string) : list item :=
  let nv := (λ '(k, v), Str (k +:+ ":" +:+ v +:+ ";")) <$> options in
  [Lst (tag "style" None None);
   Str (element +:+ " {");
   Lst nv;
   Str "}";
   Str "</style>"].

Definition na (context : string) (style : option (dict string)) : list item :=
  paragraph (Lst (italic (Str ("N/A: " +:+ context)))) style.

(* an instance of Div, of Link: what flatten makes of it is its html() *)
Definition Div (content : item) (style : option (dict string))
    (attributes : option (dict (option string))) : item :=
  Obj (div content style attributes).

Definition Link (content : item) (url : string) (style : option (dict string))
    (attributes : option (dict (option string))) : item :=
  Obj (link content url style attributes).
End html_render.

(** ** holoscan_test_controls.py: [naturally_sorted] *)

(* an element of a sort key: what maybe_int returns *)
Inductive part : Type :=
  | PInt (n : N)
  | PStr (s : string).

#[global] Instance part_eq_dec : EqDecision part.
Proof. solve_decision. Defined.

Module naturally_sorted.

(* [0-9] *)
Definition is_digit (c : ascii) : bool :=
  let n := N_of_ascii c in (48 <=? n)%N && (n <=? 57)%N.

(** [extract_parts.findall(label)] for the pattern "[^0-9]+|[0-9]+":
    the label cut into its longest runs of digits and of other
    characters, in order. *)
Fixpoint findall (label : string) : list string :=
  match label with
  | EmptyString => []
  | String c rest =>
    match findall rest with
    | String c' run :: runs =>
      if bool_decide (is_digit c = is_digit c') then
        String c (String c' run) :: runs
      else String c EmptyString :: String c' run :: runs
    | runs => String c EmptyString :: runs
    end
  end.

(* the number a run of digits writes *)
Fixpoint digits_value (n : N) (s : string) : N :=
  match s with
  | EmptyString => n
  | String c s' => digits_value (10 * n + (N_of_ascii c - 48))%N s'
  end.

(* int(s) on a run: ValueError (None) for a run that is not of digits,
   and for one of more than 4300 digits *)
Definition int (s : string) : option N :=
  match s with
  | String c _ =>
    if is_digit c && (N.of_nat (String.length s) <=? 4300)%N then
      Some (digits_value 0 s)
    else None
  | EmptyString => None
  end.

Definition maybe_int (s : string) : part :=
  match int s with
  | Some n => PInt n
  | None => PStr s
  end.

Definition key (label : string) : list part :=
  maybe_int <$> findall label.

(* [a < b] on two elements of a key *)
Definition part_lt (a b : part) : exn + bool :=
  match a, b with
  | PInt m, PInt n => inr (m <? n)%N
  | PStr s, PStr t => inr (String.ltb s t)
  | PInt _, PStr _ =>
    inl (TypeError "'<' not supported between instances of 'int' and 'str'")
  | PStr _, PInt _ =>
    inl (TypeError "'<' not supported between instances of 'str' and 'int'")
  end.

(* [k1 < k2] on two lists: the first elements that differ decide, and a
   list that ends first is the smaller *)
Fixpoint key_lt (k1 k2 : list part) : exn + bool :=
  match k1, k2 with
  | [], [] => inr false
  | [], _ :: _ => inr true
  | _ :: _, [] => inr false
  | a :: k1', b :: k2' =>
    if decide (a = b) then key_lt k1' k2' else part_lt a b
  end.

(* sorted(l, key=key), for items that have a label *)
Definition naturally_sorted {A} (_label : A → string) (l : list A)
    : exn + list A :=
  match list_sort (λ x y, key_lt (key (_label x)) (key (_label y))) l with
  | SortOk l' => inr l'
  | SortFail e _ => inl e
  end.

(* the label is not empty and starts with a digit, or with something else *)
Definition starts_with_digit (label : string) : bool :=
  match label with
  | String c _ => is_digit c
  | EmptyString => false
  end.

Definition starts_with_text (label : string) : bool :=
  match label with
  | String c _ => negb (is_digit c)
  | EmptyString => false
  end.

(* the text is not empty and ends with something that is not a digit *)
Fixpoint ends_with_text (s : string) : bool :=
  match s with
  | EmptyString => false
  | String c EmptyString => negb (is_digit c)
  | String _ s' => ends_with_text s'
  end.

(* a run of digits, not empty *)
Fixpoint digits_only (s : string) : bool :=
  match s with
  | EmptyString => false
  | String c EmptyString => is_digit c
  | String c s' => is_digit c && digits_only s'
  end.

(* runs that are not empty and whose first characters are in turn a
   digit ([digit = true]) and not a digit *)
Fixpoint takes_turns (digit : bool) (runs : list string) : Prop :=
  match runs with
  | [] => True
  | run :: runs' =>
    (∃ c s, run = String c s ∧ is_digit c = digit) ∧
    takes_turns (negb digit) runs'
  end.

(* a key in which numbers ([number = true]) and texts take turns *)
Fixpoint alternates (number : bool) (k : list part) : Prop :=
  match k with
  | [] => True
  | PInt _ :: k' => number = true ∧ alternates false k'
  | PStr _ :: k' => number = false ∧ alternates true k'
  end.

(* int() takes the digits of the label: it has at most 4300 characters *)
Definition short (label : string) : Prop :=
  (N.of_nat (String.length label) ≤ 4300)%N.
End naturally_sorted.

(** * Properties *)

(** ** [list.sort] keeps the elements, and orders them when it succeeds *)

Section list_sort_facts.
Context {A : Type} (lt : A → A → exn + bool).

Lemma binarysort_perm done rest :
  sort_list (binarysort lt done rest) ≡ₚ done ++ rest.
Proof.
  revert done. induction rest as [|pivot rest IH]; intros done; simpl.
  - by rewrite app_nil_r.
  - destruct (bsearch lt _ pivot done 0 _) as [e|i]; simpl; [done|].
    rewrite IH, <-app_assoc. simpl.
    rewrite <-!Permutation_middle. f_equiv.
    by rewrite app_assoc, take_drop.
Qed.

Lemma list_sort_perm l : sort_list (list_sort lt l) ≡ₚ l.
Proof.
  destruct l as [|a0 [|a1 rest]]; simpl; try done.
  destruct (lt a1 a0) as [e|[]]; simpl; [done| |].
  - destruct (count_desc lt a1 rest) as [e|k]; simpl; [done|].
    rewrite binarysort_perm, reverse_Permutation. simpl.
    by rewrite take_drop.
  - destruct (count_asc lt a1 rest) as [e|k]; simpl; [done|].
    rewrite binarysort_perm. simpl. by rewrite take_drop.
Qed.

(** [le] is any transitive order the answers of [lt] agree with. *)
Context (le : relation A) `{!Transitive le}.
Hypothesis lt_yes : ∀ x y, lt x y = inr true → le x y.
Hypothesis lt_no : ∀ x y, lt x y = inr false → le y x.

Lemma count_asc_sorted prev rest k :
  count_asc lt prev rest = inr k → Sorted le (prev :: take k rest).
Proof.
  revert prev k. induction rest as [|x rest IH]; intros prev k; simpl.
  - intros [= <-]. repeat constructor.
  - destruct (lt x prev) as [e|[]] eqn:E; [done| |].
    + intros [= <-]. repeat constructor.
    + destruct (count_asc lt x rest) as [e|k'] eqn:E'; [done|].
      intros [= <-]. simpl. constructor; [by apply IH|].
      constructor. by apply lt_no.
Qed.

Lemma count_desc_sorted prev rest k :
  count_desc lt prev rest = inr k → Sorted (flip le) (prev :: take k rest).
Proof.
  revert prev k. induction rest as [|x rest IH]; intros prev k; simpl.
  - intros [= <-]. repeat constructor.
  - destruct (lt x prev) as [e|[]] eqn:E; [done| |].
    + destruct (count_desc lt x rest) as [e|k'] eqn:E'; [done|].
      intros [= <-]. simpl. constructor; [by apply IH|].
      constructor. by apply lt_yes.
    + intros [= <-]. repeat constructor.
Qed.

Lemma StronglySorted_reverse (l : list A) :
  StronglySorted (flip le) l → StronglySorted le (reverse l).
Proof.
  induction 1 as [|x l _ IH Hx]; [constructor|].
  rewrite reverse_cons. apply StronglySorted_app; split_and!.
  - intros x1 x2 Hx1 ->%list_elem_of_singleton.
    rewrite Forall_forall in Hx. apply Hx. by apply elem_of_reverse.
  - done.
  - repeat constructor.
Qed.

Lemma bsearch_spec fuel pivot (a : list A) l r i :
  StronglySorted le a →
  l ≤ r ≤ length a → r - l ≤ fuel →
  Forall (λ x, le x pivot) (take l a) →
  Forall (le pivot) (drop r a) →
  bsearch lt fuel pivot a l r = inr i →
  i ≤ length a ∧
  Forall (λ x, le x pivot) (take i a) ∧ Forall (le pivot) (drop i a).
Proof.
  intros Ha. revert l r.
  induction fuel as [|fuel IH]; intros l r Hlr Hfuel Hl Hr; cbn [bsearch].
  - intros [= <-]. replace l with r in * by lia. split_and!; [lia|done..].
  - case_decide as Hlt; cycle 1.
    { intros [= <-]. replace l with r in * by lia. split_and!; [lia|done..]. }
    set (p := l + (r - l) / 2).
    assert (l ≤ p < r) as Hp.
    { subst p. split; [lia|].
      apply Nat.lt_le_trans with (l + (r - l)); [|lia]. apply Nat.add_lt_mono_l, Nat.div_lt; lia. }
    destruct (a !! p) as [x|] eqn:Hx; cycle 1.
    { apply lookup_ge_None in Hx. lia. }
    pose proof (take_drop_middle a p x Hx) as Hsplit.
    rewrite <-Hsplit in Ha.
    apply StronglySorted_app in Ha as (Hcross & _ & Hback).
    apply StronglySorted_cons in Hback as [Hback _].
    destruct (lt pivot x) as [e|[]] eqn:Hcmp; [done| |].
    + apply IH; [lia|lia|done|].
      rewrite (drop_S a x p Hx). constructor; [by apply lt_yes|].
      eapply Forall_impl; [exact Hback|].
      intros y Hy. etrans; [by apply lt_yes|done].
    + apply IH; [lia|lia| |done].
      rewrite (take_S_r a p x Hx). apply Forall_app; split.
      * apply Forall_forall. intros y Hy. etrans; [|by apply lt_no].
        apply Hcross; [done|]. by left.
      * repeat constructor. by apply lt_no.
Qed.

Lemma binarysort_sorted done rest l' :
  StronglySorted le done →
  binarysort lt done rest = SortOk l' → StronglySorted le l'.
Proof.
  revert done. induction rest as [|pivot rest IH]; intros done Hdone; simpl.
  - by intros [= <-].
  - destruct (bsearch lt _ pivot done 0 _) as [e|i] eqn:Hi; [done|].
    apply IH.
    apply bsearch_spec in Hi as (Hlen & Hbelow & Habove);
      [|done|lia|lia|by rewrite take_0|by rewrite drop_all].
    rewrite <-(take_drop i done) in Hdone.
    apply StronglySorted_app in Hdone as (Hcross & Hfront & Hback).
    apply StronglySorted_app; split_and!; [|done|by constructor].
    intros x1 x2 Hx1 [->|Hx2]%elem_of_cons.
    + rewrite Forall_forall in Hbelow. by apply Hbelow.
    + by apply Hcross.
Qed.

Lemma list_sort_sorted l l' :
  list_sort lt l = SortOk l' → StronglySorted le l'.
Proof.
  destruct l as [|a0 [|a1 rest]]; simpl.
  - intros [= <-]. constructor.
  - intros [= <-]. repeat constructor.
  - destruct (lt a1 a0) as [e|[]] eqn:E01; [done| |].
    + destruct (count_desc lt a1 rest) as [e|k] eqn:Ek; [done|].
      apply binarysort_sorted.
      apply (StronglySorted_reverse (a0 :: a1 :: take k rest)).
      apply Sorted_StronglySorted; [apply _|].
      constructor; [by eapply count_desc_sorted|].
      constructor. by apply lt_yes.
    + destruct (count_asc lt a1 rest) as [e|k] eqn:Ek; [done|].
      apply binarysort_sorted.
      apply Sorted_StronglySorted; [done|].
      constructor; [by eapply count_asc_sorted|].
      constructor. by apply lt_no.
Qed.
End list_sort_facts.

(** When every comparison it may make is defined, the sort returns. *)
Section list_sort_total.
Context {A : Type} (lt : A → A → exn + bool).

Lemma count_asc_returns prev rest :
  (∀ x y, x ∈ prev :: rest → y ∈ prev :: rest → ∃ b, lt x y = inr b) →
  ∃ k, count_asc lt prev rest = inr k.
Proof.
  revert prev. induction rest as [|x rest IH]; intros prev Hc; simpl.
  - by exists 0.
  - destruct (Hc x prev) as [b ->]; [rewrite !elem_of_cons; tauto..|].
    destruct b; [by exists 0|].
    destruct (IH x) as [k ->]; [|by eexists].
    intros a b Ha Hb. apply Hc; by apply list_elem_of_further.
Qed.

Lemma count_desc_returns prev rest :
  (∀ x y, x ∈ prev :: rest → y ∈ prev :: rest → ∃ b, lt x y = inr b) →
  ∃ k, count_desc lt prev rest = inr k.
Proof.
  revert prev. induction rest as [|x rest IH]; intros prev Hc; simpl.
  - by exists 0.
  - destruct (Hc x prev) as [b ->]; [rewrite !elem_of_cons; tauto..|].
    destruct b; [|by exists 0].
    destruct (IH x) as [k ->]; [|by eexists].
    intros a b Ha Hb. apply Hc; by apply list_elem_of_further.
Qed.

Lemma bsearch_returns fuel pivot (a : list A) l r :
  (∀ x, x ∈ a → ∃ b, lt pivot x = inr b) →
  ∃ i, bsearch lt fuel pivot a l r = inr i.
Proof.
  intros Hc. revert l r.
  induction fuel as [|fuel IH]; intros l r; cbn [bsearch]; [by eexists|].
  case_decide; [|by eexists].
  destruct (a !! (l + (r - l) / 2)) as [x|] eqn:Hx; [|by eexists].
  destruct (Hc x) as [b ->]; [by eapply list_elem_of_lookup_2|].
  destruct b; apply IH.
Qed.

Lemma binarysort_returns done rest :
  (∀ x y, x ∈ done ++ rest → y ∈ done ++ rest → ∃ b, lt x y = inr b) →
  ∃ l', binarysort lt done rest = SortOk l'.
Proof.
  revert done. induction rest as [|pivot rest IH]; intros done Hc; simpl.
  - by eexists.
  - destruct (bsearch_returns (length done) pivot done 0 (length done))
      as [i ->].
    { intros x Hx. apply Hc; rewrite elem_of_app, elem_of_cons; tauto. }
    apply IH.
    assert (∀ z, z ∈ (take i done ++ pivot :: drop i done) ++ rest →
                 z ∈ done ++ pivot :: rest) as Hin.
    { intros z.
      assert (z ∈ done ↔ z ∈ take i done ∨ z ∈ drop i done) as Hd.
      { by rewrite <-elem_of_app, take_drop. }
      rewrite !elem_of_app, !elem_of_cons, Hd. tauto. }
    intros x y Hx Hy. apply Hc; by apply Hin.
Qed.

Lemma list_sort_returns l :
  (∀ x y, x ∈ l → y ∈ l → ∃ b, lt x y = inr b) →
  ∃ l', list_sort lt l = SortOk l'.
Proof.
  intros Hc. destruct l as [|a0 [|a1 rest]]; [by eexists..|]. simpl.
  assert (∀ k z, z ∈ (a0 :: a1 :: take k rest) ++ drop k rest →
                 z ∈ a0 :: a1 :: rest) as Hin.
  { intros k z. simpl. by rewrite take_drop. }
  destruct (Hc a1 a0) as [b ->]; [rewrite !elem_of_cons; tauto..|].
  destruct b.
  - destruct (count_desc_returns a1 rest) as [k ->].
    { intros x y Hx Hy. apply Hc; by apply list_elem_of_further. }
    apply binarysort_returns.
    assert (∀ z, z ∈ reverse (a0 :: a1 :: take k rest) ++ drop k rest →
                 z ∈ a0 :: a1 :: rest) as Hin'.
    { intros z Hz. apply (Hin k).
      revert Hz. rewrite !elem_of_app, elem_of_reverse. tauto. }
    intros x y Hx Hy. apply Hc; by apply Hin'.
  - destruct (count_asc_returns a1 rest) as [k ->].
    { intros x y Hx Hy. apply Hc; by apply list_elem_of_further. }
    apply binarysort_returns.
    intros x y Hx Hy. apply Hc; by apply (Hin k).
Qed.
End list_sort_total.

(** ** The alarm list *)

Ltac py_unfold :=
  unfold mbind, py_bind, mret, py_ret, modify, get, raise, block in *.

Section alarm_facts.
Context {C H : Type} `{EqDecision C}.
Implicit Types (r : Reactor C H) (a b : ReactorAlarm C) (cb : C).

#[local] Instance deadline_le_trans :
  Transitive (Reactor.deadline_le (C:=C)).
Proof. unfold Reactor.deadline_le. intros a b c. lia. Qed.

Lemma alarm_lt_yes a b :
  Reactor.alarm_lt a b = inr true → Reactor.deadline_le a b.
Proof.
  unfold Reactor.alarm_lt, Reactor.deadline_le.
  repeat case_decide; try done; try lia.
  all: destruct (period_s a), (period_s b); try done; lia.
Qed.

Lemma alarm_lt_no a b :
  Reactor.alarm_lt a b = inr false → Reactor.deadline_le b a.
Proof.
  unfold Reactor.alarm_lt, Reactor.deadline_le.
  repeat case_decide; try done; try lia.
  all: destruct (period_s a), (period_s b); try done; lia.
Qed.

Lemma sort_alarms_perm r :
  _alarms (Reactor.sort_alarms r).2 ≡ₚ _alarms r.
Proof.
  unfold Reactor.sort_alarms.
  pose proof (list_sort_perm Reactor.alarm_lt (_alarms r)) as Hp.
  by destruct (list_sort _ _).
Qed.

Lemma sort_alarms_sorted r r' :
  Reactor.sort_alarms r = (Ret tt, r') →
  Reactor.earliest_first (_alarms r').
Proof.
  unfold Reactor.sort_alarms, Reactor.earliest_first.
  destruct (list_sort _ _) as [l|e l] eqn:Hsort; [|done].
  intros [= <-]. simpl. apply StronglySorted_Sorted.
  eapply list_sort_sorted; [apply _|apply alarm_lt_yes|apply alarm_lt_no|done].
Qed.

(** Whether it returns or raises, [alarm] leaves the new alarm in the
    list, and drops none. *)
Lemma alarm_perm d cb r :
  _alarms (Reactor.alarm d cb r).2 ≡ₚ mkReactorAlarm d None cb :: _alarms r.
Proof.
  unfold Reactor.alarm, Reactor._signal. py_unfold.
  set (r1 := Reactor.set_alarms _ r).
  pose proof (sort_alarms_perm r1) as Hp.
  destruct (Reactor.sort_alarms r1) as [[[]|e| |] r2]; simpl in *;
    rewrite Hp; subst r1; simpl; by rewrite Permutation_app_comm.
Qed.

Lemma periodic_alarm_perm now p cb r :
  _alarms (Reactor.periodic_alarm now p cb r).2
  ≡ₚ mkReactorAlarm (now + p) (Some p) cb :: _alarms r.
Proof.
  unfold Reactor.periodic_alarm, Reactor._signal. py_unfold.
  set (r1 := Reactor.set_alarms _ r).
  pose proof (sort_alarms_perm r1) as Hp.
  destruct (Reactor.sort_alarms r1) as [[[]|e| |] r2]; simpl in *;
    rewrite Hp; subst r1; simpl; by rewrite Permutation_app_comm.
Qed.

(** When they return, the operations on the list leave it sorted
    earliest deadline first. *)
Lemma alarm_keeps_order d cb r x r' :
  Reactor.alarm d cb r = (Ret x, r') →
  Reactor.earliest_first (_alarms r').
Proof.
  unfold Reactor.alarm, Reactor._signal. py_unfold.
  destruct (Reactor.sort_alarms _) as [[[]|e| |] r2] eqn:Hsort; try done.
  intros [= _ <-]. simpl. by eapply sort_alarms_sorted.
Qed.

Lemma periodic_alarm_keeps_order now p cb r x r' :
  Reactor.periodic_alarm now p cb r = (Ret x, r') →
  Reactor.earliest_first (_alarms r').
Proof.
  unfold Reactor.periodic_alarm, Reactor._signal. py_unfold.
  destruct (Reactor.sort_alarms _) as [[[]|e| |] r2] eqn:Hsort; try done.
  intros [= _ <-]. simpl. by eapply sort_alarms_sorted.
Qed.

Lemma expire_keeps_order now r x r' :
  Reactor.earliest_first (_alarms r) →
  Reactor.expire now r = (Ret x, r') →
  Reactor.earliest_first (_alarms r').
Proof.
  unfold Reactor.expire. intros Hsorted.
  destruct (_alarms r) as [|a tl] eqn:Hl.
  { intros [= _ <-]. by rewrite Hl. }
  case_decide.
  { intros [= _ <-]. by rewrite Hl. }
  destruct (period_s a) as [p|].
  - py_unfold.
    destruct (Reactor.sort_alarms _) as [[[]|e| |] r2] eqn:Hsort; try done.
    intros [= _ <-]. by eapply sort_alarms_sorted.
  - intros [= _ <-]. simpl. by inversion Hsorted.
Qed.

(** What a turn of the alarm loop does to the list: nothing, or the
    head is taken off (one-shot), or the head is put back with its own
    deadline moved on by its period, whatever the clock says. *)
Lemma expire_cases now r :
  let '(x, r') := Reactor.expire now r in
  match _alarms r with
  | [] => x = Ret (Idle None) ∧ r' = r
  | a :: tl =>
    if decide (deadline a > now)%Z then
      x = Ret (Idle (Some (deadline a - now)%Z)) ∧ r' = r
    else
      (x = Ret (Fire a) ∨ ∃ e, x = Raise e) ∧
      _alarms r' ≡ₚ
        match period_s a with
        | None => tl
        | Some p => mkReactorAlarm (deadline a + p) (Some p) (callback a) :: tl
        end
  end.
Proof.
  unfold Reactor.expire.
  destruct (_alarms r) as [|a tl] eqn:Hl; [done|].
  case_decide; [done|].
  destruct (period_s a) as [p|]; [|by auto].
  py_unfold.
  set (r1 := Reactor.set_alarms _ r).
  pose proof (sort_alarms_perm r1) as Hp.
  destruct (Reactor.sort_alarms r1) as [[[]|e| |] r2] eqn:Hsort;
    simpl in *; split; eauto.
  all: unfold Reactor.sort_alarms in Hsort;
       by destruct (list_sort _ _).
Qed.

(** The sort of the alarm list returns when no two alarms share a
    deadline: the deadlines alone order the tuples. *)
Lemma alarm_lt_returns a b :
  (deadline a = deadline b → a = b) → ∃ x, Reactor.alarm_lt a b = inr x.
Proof.
  intros Hab. unfold Reactor.alarm_lt.
  case_decide as Hd; [|by eexists].
  rewrite (Hab Hd). rewrite !decide_True by done. by eexists.
Qed.

Lemma sort_alarms_returns r :
  (∀ a b, a ∈ _alarms r → b ∈ _alarms r → deadline a = deadline b → a = b) →
  ∃ l, Reactor.sort_alarms r = (Ret tt, Reactor.set_alarms (λ _, l) r).
Proof.
  intros Hc. unfold Reactor.sort_alarms.
  destruct (list_sort_returns Reactor.alarm_lt (_alarms r)) as [l ->].
  - intros a b Ha Hb. apply alarm_lt_returns. by apply Hc.
  - by exists l.
Qed.
End alarm_facts.

(** ** Periodic alarms *)

Section periodic_facts.
Context {C H : Type} `{EqDecision C}.
Implicit Types (r : Reactor C H) (h : Reactor.history (C:=C) (H:=H)).

Lemma filter_perm_singleton (P : ReactorAlarm C → Prop)
    `{∀ a, Decision (P a)} (l l' : list (ReactorAlarm C)) x :
  l' ≡ₚ l → filter P l = [x] → filter P l' = [x].
Proof.
  intros Hp Hl. symmetry. apply Permutation_singleton_l.
  by rewrite <-Hl, Hp.
Qed.

(** One holding of the lock keeps the schedule of the periodic alarm
    that calls [cb]: [k] firings so far, at [T+P], ..., [T+kP], and the
    alarm waiting in the list with deadline [T+(k+1)P]. *)
Lemma hold_keeps_schedule (T P : Z) (cb : C) h x (k : nat) :
  Reactor.brings x ≠ Some cb →
  filter (λ a, callback a = cb) (Reactor.fired h)
    = (λ j : nat, mkReactorAlarm (T + (Z.of_nat j + 1) * P) (Some P) cb)
      <$> seq 0 k →
  (Reactor.crashed h = false →
   filter (λ a, callback a = cb) (_alarms (Reactor.reactor_now h))
     = [mkReactorAlarm (T + (Z.of_nat k + 1) * P) (Some P) cb]) →
  ∃ k' : nat,
    filter (λ a, callback a = cb) (Reactor.fired (Reactor.hold h x))
      = (λ j : nat, mkReactorAlarm (T + (Z.of_nat j + 1) * P) (Some P) cb)
        <$> seq 0 k' ∧
    (Reactor.crashed (Reactor.hold h x) = false →
     filter (λ a, callback a = cb)
            (_alarms (Reactor.reactor_now (Reactor.hold h x)))
       = [mkReactorAlarm (T + (Z.of_nat k' + 1) * P) (Some P) cb]).
Proof.
  intros Hx Hfired Hlist. destruct x as [d cb'|now p cb'|now]; simpl.
  - exists k. split; [done|]. intros Hc.
    eapply filter_perm_singleton; [apply alarm_perm|].
    rewrite filter_cons_False by (simpl in *; congruence). auto.
  - exists k. split; [done|]. intros Hc.
    eapply filter_perm_singleton; [apply periodic_alarm_perm|].
    rewrite filter_cons_False by (simpl in *; congruence). auto.
  - destruct (Reactor.crashed h) eqn:Hc; [exists k; split; [done|congruence]|].
    specialize (Hlist eq_refl).
    pose proof (expire_cases now (Reactor.reactor_now h)) as Hcases.
    destruct (Reactor.expire now (Reactor.reactor_now h)) as [y r'].
    destruct (_alarms (Reactor.reactor_now h)) as [|a tl] eqn:Hl.
    { destruct Hcases as [-> ->]. exists k. simpl. by rewrite Hl. }
    case_decide.
    { destruct Hcases as [-> ->]. exists k. simpl. by rewrite Hl. }
    destruct Hcases as [[->|[e ->]] Hperm]; simpl; [|by exists k].
    destruct (decide (callback a = cb)) as [Ha|Ha].
    + rewrite filter_cons_True in Hlist by done.
      injection Hlist as -> Htl. simpl in Hperm.
      exists (S k). split.
      * rewrite filter_app, Hfired, seq_S, fmap_app. simpl.
        by rewrite filter_cons_True, filter_nil.
      * intros _. eapply filter_perm_singleton; [exact Hperm|].
        rewrite filter_cons_True, Htl by done.
        do 2 f_equal. lia.
    + rewrite filter_cons_False in Hlist by done.
      exists k. split.
      * rewrite filter_app, filter_cons_False, filter_nil by done.
        by rewrite app_nil_r.
      * intros _. eapply filter_perm_singleton; [exact Hperm|].
        destruct (period_s a); [|done].
        by rewrite filter_cons_False.
Qed.

Lemma unfold_keeps_schedule (T P : Z) (cb : C) xs h (k : nat) :
  (∀ x, x ∈ xs → Reactor.brings x ≠ Some cb) →
  filter (λ a, callback a = cb) (Reactor.fired h)
    = (λ j : nat, mkReactorAlarm (T + (Z.of_nat j + 1) * P) (Some P) cb)
      <$> seq 0 k →
  (Reactor.crashed h = false →
   filter (λ a, callback a = cb) (_alarms (Reactor.reactor_now h))
     = [mkReactorAlarm (T + (Z.of_nat k + 1) * P) (Some P) cb]) →
  ∃ k' : nat,
    filter (λ a, callback a = cb)
           (Reactor.fired (Reactor.unfold_history h xs))
      = (λ j : nat, mkReactorAlarm (T + (Z.of_nat j + 1) * P) (Some P) cb)
        <$> seq 0 k' ∧
    (Reactor.crashed (Reactor.unfold_history h xs) = false →
     filter (λ a, callback a = cb)
            (_alarms (Reactor.reactor_now (Reactor.unfold_history h xs)))
       = [mkReactorAlarm (T + (Z.of_nat k' + 1) * P) (Some P) cb]).
Proof.
  revert h k. induction xs as [|x xs IH]; intros h k Hxs Hfired Hlist.
  - exists k. by split.
  - simpl.
    destruct (hold_keeps_schedule T P cb h x k) as (k1 & Hf1 & Hl1);
      [apply Hxs; by left|done|done|].
    apply (IH _ k1); [|done|done].
    intros y Hy. apply Hxs. by right.
Qed.
End periodic_facts.

Section periodic_steps.
Context {C H : Type} `{EqDecision C}.
Implicit Types (r : Reactor C H) (h : Reactor.history (C:=C) (H:=H)).

(* a turn that finds a periodic alarm due at the head of a list without
   ties: the alarm is fired as it stands and put back with its own
   deadline moved on by its period *)
Lemma turn_fires_due_head h now a p tl :
  Reactor.crashed h = false →
  _alarms (Reactor.reactor_now h) = a :: tl →
  period_s a = Some p →
  (deadline a ≤ now)%Z →
  (∀ b, b ∈ tl → deadline b ≠ (deadline a + p)%Z) →
  (∀ b c, b ∈ tl → c ∈ tl → deadline b = deadline c → b = c) →
  ∃ r',
    Reactor.expire now (Reactor.reactor_now h) = (Ret (Fire a), r') ∧
    _alarms r' ≡ₚ mkReactorAlarm (deadline a + p) (Some p) (callback a) :: tl ∧
    Reactor.earliest_first (_alarms r') ∧
    Reactor.hold h (Reactor.Turn now)
    = Reactor.mkHistory r' (Reactor.fired h ++ [a]) false.
Proof.
  intros Hcr Hl Hp Hdue Hnew Htl.
  set (a' := mkReactorAlarm (deadline a + p) (Some p) (callback a)).
  set (r1 := Reactor.set_alarms (λ _, a' :: tl) (Reactor.reactor_now h)).
  destruct (sort_alarms_returns r1) as [l Hsort].
  { simpl. intros b c [->|Hb]%elem_of_cons [->|Hc]%elem_of_cons Hbc;
      try done.
    - by destruct (Hnew c Hc).
    - by destruct (Hnew b Hb).
    - by apply Htl. }
  pose proof (sort_alarms_perm r1) as Hperm.
  pose proof (sort_alarms_sorted r1 _ Hsort) as Hsorted.
  rewrite Hsort in Hperm. simpl in Hperm, Hsorted.
  assert (Reactor.expire now (Reactor.reactor_now h)
          = (Ret (Fire a), Reactor.set_alarms (λ _, l) r1)) as Hexp.
  { unfold Reactor.expire. rewrite Hl.
    rewrite decide_False by lia. rewrite Hp.
    py_unfold. fold a' r1. by rewrite Hsort. }
  exists (Reactor.set_alarms (λ _, l) r1). split_and!; try done.
  simpl. by rewrite Hcr, Hexp.
Qed.

(* a turn that finds the head of the list not yet due changes nothing *)
Lemma turn_before_deadline h now a tl :
  Reactor.crashed h = false →
  _alarms (Reactor.reactor_now h) = a :: tl →
  (now < deadline a)%Z →
  Reactor.hold h (Reactor.Turn now) = h.
Proof.
  intros Hcr Hl Hnow. simpl. rewrite Hcr.
  unfold Reactor.expire. rewrite Hl.
  rewrite decide_True by lia.
  destruct h. simpl in *. by subst.
Qed.

(* turns on a list that holds one periodic alarm, each of them reading
   a clock that has reached the deadline the alarm has by then *)
Lemma turns_fire_lone_alarm (p : Z) (cb : C) nows h (d : Z) :
  Reactor.crashed h = false →
  _alarms (Reactor.reactor_now h) = [mkReactorAlarm d (Some p) cb] →
  (∀ (j : nat) now, nows !! j = Some now → (d + Z.of_nat j * p ≤ now)%Z) →
  let h' := Reactor.unfold_history h (Reactor.Turn <$> nows) in
  Reactor.crashed h' = false ∧
  Reactor.fired h'
  = Reactor.fired h
    ++ ((λ j : nat, mkReactorAlarm (d + Z.of_nat j * p) (Some p) cb)
        <$> seq 0 (length nows)) ∧
  _alarms (Reactor.reactor_now h')
  = [mkReactorAlarm (d + Z.of_nat (length nows) * p) (Some p) cb].
Proof.
  unfold Reactor.unfold_history.
  revert h d. induction nows as [|now nows IH]; intros h d Hcr Hl Hnows.
  - simpl. rewrite app_nil_r, Z.add_0_r. by split_and!.
  - rewrite fmap_cons. cbn [foldl].
    destruct (turn_fires_due_head h now (mkReactorAlarm d (Some p) cb) p [])
      as (r' & Hexp & Hperm & _ & Hhold); try done.
    { specialize (Hnows 0 now eq_refl). simpl in *. lia. }
    { by intros b Hb%elem_of_nil. }
    { by intros b c Hb%elem_of_nil. }
    apply Permutation_singleton_r in Hperm. simpl in Hperm.
    rewrite Hhold.
    destruct (IH (Reactor.mkHistory r'
                    (Reactor.fired h ++ [mkReactorAlarm d (Some p) cb]) false)
                 (d + p)%Z) as (Hcr' & Hf' & Hl'); try done.
    { intros j now' Hj. specialize (Hnows (S j) now' Hj). lia. }
    split_and!; [done| |].
    + rewrite Hf'. cbn [Reactor.fired length seq fmap list_fmap].
      rewrite <-app_assoc. cbn [app]. f_equal.
      f_equal; [f_equal; lia|].
      rewrite <-fmap_S_seq, <-list_fmap_compose.
      apply list_fmap_ext. intros i j _. simpl. f_equal. lia.
    + rewrite Hl'. cbn [length]. do 2 f_equal. lia.
Qed.
End periodic_steps.

(** ** The reactor: schedule, order, registration *)

(** The single step behind the schedule: when the head of the list is a
    periodic alarm that is due, the turn puts it back with its own stored
    deadline moved on by its period; the clock reading [now] does not
    enter the new deadline. *)
Lemma expire_rearms_from_deadline {C H} `{EqDecision C}
    (r : Reactor C H) (now p : Z) a tl :
  _alarms r = a :: tl → period_s a = Some p → ¬ (deadline a > now)%Z →
  _alarms (Reactor.expire now r).2
  ≡ₚ mkReactorAlarm (deadline a + p) (Some p) (callback a) :: tl.
Proof.
  intros Hl Hp Hdue. pose proof (expire_cases now r) as Hc.
  destruct (Reactor.expire now r) as [x r']. rewrite Hl in Hc.
  case_decide; [done|]. rewrite Hp in Hc. by destruct Hc.
Qed.

(** C3.  A periodic alarm with period [P], armed by [periodic_alarm]
    when the clock reads [T], calls [cb]; no other alarm does.  Whatever
    the turns of the loop read from the clock, and whatever other alarms
    come and go:
    - the [k] firings of the alarm so far happened with the deadlines
      [T+P], [T+2P], ..., [T+kP], in this order, and the alarm waits in
      the list with the deadline [T+(k+1)P];
    - a turn that finds it at the head of the list with its deadline
      reached by the clock fires it as it stands and puts it back with
      its stored deadline plus [P] (the clock reading takes no part in
      the new deadline), provided the new deadline is that of no other
      alarm and no two other alarms share one (a tie makes the sort
      compare periods or callbacks);
    - a turn that reads a clock before the deadline at the head fires
      nothing and leaves the list alone;
    - once the alarm is alone in the list, [n] turns that each find its
      deadline reached fire it [n] times, at [T+(k+1)P], ...,
      [T+(k+n)P], however late the clock readings are.
    Timestamps are exact numbers here: each new deadline is the sum
    [deadline + period_s] the code forms, and the closed form [T+jP] is
    that of exact addition. *)
Theorem periodic_alarm_fires_on_schedule {C H} `{EqDecision C}
    (r : Reactor C H) (T P : Z) (cb : C) (xs : list Reactor.holding) :
  (∀ a, a ∈ _alarms r → callback a ≠ cb) →
  (∀ x, x ∈ xs → Reactor.brings x ≠ Some cb) →
  let firing (j : nat) :=
    mkReactorAlarm (T + (Z.of_nat j + 1) * P) (Some P) cb in
  let h := Reactor.unfold_history
             (Reactor.mkHistory (Reactor.periodic_alarm T P cb r).2 [] false)
             xs in
  let k := length (filter (λ a, callback a = cb) (Reactor.fired h)) in
  filter (λ a, callback a = cb) (Reactor.fired h) = firing <$> seq 0 k ∧
  (Reactor.crashed h = false →
   filter (λ a, callback a = cb) (_alarms (Reactor.reactor_now h))
   = [firing k]) ∧
  (∀ now a tl,
     Reactor.crashed h = false →
     _alarms (Reactor.reactor_now h) = a :: tl → callback a = cb →
     (deadline a ≤ now)%Z →
     (∀ b, b ∈ tl → deadline b ≠ (deadline a + P)%Z) →
     (∀ b c, b ∈ tl → c ∈ tl → deadline b = deadline c → b = c) →
     a = firing k ∧
     ∃ r',
       Reactor.expire now (Reactor.reactor_now h) = (Ret (Fire a), r') ∧
       _alarms r' ≡ₚ mkReactorAlarm (deadline a + P) (Some P) cb :: tl ∧
       Reactor.earliest_first (_alarms r') ∧
       Reactor.hold h (Reactor.Turn now)
       = Reactor.mkHistory r' (Reactor.fired h ++ [a]) false) ∧
  (∀ now a tl,
     Reactor.crashed h = false →
     _alarms (Reactor.reactor_now h) = a :: tl →
     (now < deadline a)%Z →
     Reactor.hold h (Reactor.Turn now) = h) ∧
  (∀ nows : list Z,
     Reactor.crashed h = false →
     length (_alarms (Reactor.reactor_now h)) = 1 →
     (∀ (j : nat) now, nows !! j = Some now →
                       (T + (Z.of_nat (k + j) + 1) * P ≤ now)%Z) →
     let h' := Reactor.unfold_history h (Reactor.Turn <$> nows) in
     Reactor.crashed h' = false ∧
     Reactor.fired h'
     = Reactor.fired h ++ ((λ j, firing (k + j)) <$> seq 0 (length nows)) ∧
     _alarms (Reactor.reactor_now h') = [firing (k + length nows)]).
Proof.
  intros Hfresh Hxs firing h k.
  assert (filter (λ a, callback a = cb) (Reactor.fired h) = firing <$> seq 0 k ∧
          (Reactor.crashed h = false →
           filter (λ a, callback a = cb) (_alarms (Reactor.reactor_now h))
           = [firing k])) as [Hfired Hlist].
  { destruct (unfold_keeps_schedule T P cb xs
                (Reactor.mkHistory (Reactor.periodic_alarm T P cb r).2 [] false)
                0) as (k' & Hf & Hl); [done|done| |].
    - intros _. simpl.
      eapply filter_perm_singleton; [apply periodic_alarm_perm|].
      rewrite filter_cons_True by done.
      replace (filter _ (_alarms r)) with (@nil (ReactorAlarm C)).
      { do 2 f_equal. lia. }
      symmetry. induction (_alarms r) as [|a l IH]; [done|].
      rewrite filter_cons_False; [apply IH|apply Hfresh; by left].
      intros b Hb. apply Hfresh. by right.
    - assert (k = k') as ->; [|done].
      subst k. fold h in Hf. by rewrite Hf, length_fmap, length_seq. }
  split_and!; try done.
  - intros now a tl Hcr Hl Ha Hdue Hnew Htl.
    specialize (Hlist Hcr). rewrite Hl, filter_cons_True in Hlist by done.
    injection Hlist as Hak _.
    split; [done|].
    destruct (turn_fires_due_head h now a P tl) as (r' & ? & ? & ? & ?);
      try done.
    { by rewrite Hak. }
    exists r'. by rewrite <-Ha.
  - intros now a tl. apply turn_before_deadline.
  - intros nows Hcr Hlen Hnows h'.
    specialize (Hlist Hcr).
    destruct (_alarms (Reactor.reactor_now h)) as [|a [|]] eqn:Hl; try done.
    destruct (decide (callback a = cb)) as [Ha|Ha];
      [|by rewrite filter_cons_False in Hlist].
    rewrite filter_cons_True in Hlist by done. injection Hlist as ->.
    destruct (turns_fire_lone_alarm P cb nows h (T + (Z.of_nat k + 1) * P))
      as (? & Hf & Hl'); try done.
    { intros j now Hj. specialize (Hnows j now Hj). lia. }
    split_and!; [done| |].
    + subst h'. rewrite Hf. f_equal.
      apply list_fmap_ext. intros i j _. unfold firing. f_equal. lia.
    + subst h'. rewrite Hl'. unfold firing. do 2 f_equal. lia.
Qed.

Lemma periodic_alarm_fires_on_schedule_witness :
  let r : Reactor nat nat := (Reactor.init 3 4).2 in
  let xs := [Reactor.Turn 3; Reactor.Call_alarm 12 2%nat; Reactor.Turn 13;
             Reactor.Turn 15; Reactor.Turn 100] in
  let firing (j : nat) :=
    mkReactorAlarm (10 + (Z.of_nat j + 1) * 5) (Some 5%Z) 1%nat in
  let h := Reactor.unfold_history
             (Reactor.mkHistory (Reactor.periodic_alarm 10 5 1%nat r).2 [] false)
             xs in
  Reactor.crashed h = false ∧
  Reactor.fired h = [mkReactorAlarm 12 None 2%nat; firing 0; firing 1] ∧
  filter (λ a, callback a = 1%nat) (Reactor.fired h) = firing <$> seq 0 2 ∧
  filter (λ a, callback a = 1%nat) (_alarms (Reactor.reactor_now h))
  = [firing 2] ∧
  (∃ r',
     Reactor.expire 1000 (Reactor.reactor_now h) = (Ret (Fire (firing 2)), r') ∧
     _alarms r' ≡ₚ [mkReactorAlarm (deadline (firing 2) + 5) (Some 5%Z) 1%nat] ∧
     Reactor.hold h (Reactor.Turn 1000)
     = Reactor.mkHistory r' (Reactor.fired h ++ [firing 2]) false) ∧
  Reactor.hold h (Reactor.Turn 24) = h ∧
  (let h' := Reactor.unfold_history h (Reactor.Turn <$> [25; 1000; 1000]%Z) in
   Reactor.crashed h' = false ∧
   Reactor.fired h'
   = Reactor.fired h ++ [firing 2; firing 3; firing 4] ∧
   _alarms (Reactor.reactor_now h') = [firing 5]).
Proof.
  intros r xs firing h.
  assert (∀ a, a ∈ _alarms r → callback a ≠ 1%nat) as Hfresh.
  { intros a Ha. vm_compute in Ha. by apply elem_of_nil in Ha. }
  assert (∀ x, x ∈ xs → Reactor.brings x ≠ Some 1%nat) as Hxs.
  { intros x Hx. unfold xs in Hx.
    repeat (apply elem_of_cons in Hx as [->|Hx]; [simpl; congruence|]).
    by apply elem_of_nil in Hx. }
  assert (Reactor.crashed h = false) as Hcr by (vm_compute; reflexivity).
  destruct (periodic_alarm_fires_on_schedule r 10 5 1%nat xs Hfresh Hxs)
    as (Hfired & Hlist & Hdue & Hearly & Hlone).
  split_and!.
  - exact Hcr.
  - vm_compute. reflexivity.
  - exact Hfired.
  - exact (Hlist Hcr).
  - destruct (Hdue 1000%Z (firing 2) []) as (_ & r' & Hexp & Hperm & _ & Hhold).
    + exact Hcr.
    + vm_compute. reflexivity.
    + reflexivity.
    + vm_compute. congruence.
    + by intros b Hb%elem_of_nil.
    + by intros b c Hb%elem_of_nil.
    + exists r'. by split_and!.
  - apply (Hearly 24%Z (firing 2) []).
    + exact Hcr.
    + vm_compute. reflexivity.
    + vm_compute. reflexivity.
  - apply (Hlone [25; 1000; 1000]%Z).
    + exact Hcr.
    + vm_compute. reflexivity.
    + intros j now Hj.
      destruct j as [|[|[|j]]]; simpl in Hj; try done;
        injection Hj as <-; vm_compute; congruence.
Defined.

(** C6 (where the code leaves its own invariant).  On the list
    [(3, f); (5, g)], sorted earliest deadline first, [alarm(3, h)]
    appends [(3, h)]; the sort then has to order the callbacks [h] and
    [f], raises [TypeError], and leaves the list as [(3, f); (5, g);
    (3, h)], which is not sorted by deadline. *)
Theorem alarm_tie_leaves_list_unsorted :
  let r0 : Reactor nat nat := (Reactor.init 3 4).2 in
  let r2 := (Reactor.alarm 5 1%nat (Reactor.alarm 3 0%nat r0).2).2 in
  Reactor.earliest_first (_alarms r2) ∧
  ∃ e r3,
    Reactor.alarm 3 2%nat r2 = (Raise e, r3) ∧
    exn_class e = "TypeError" ∧
    _alarms r3 = [mkReactorAlarm 3 None 0%nat; mkReactorAlarm 5 None 1%nat;
                  mkReactorAlarm 3 None 2%nat] ∧
    ¬ Reactor.earliest_first (_alarms r3).
Proof.
  intros r0 r2. split.
  - apply (alarm_keeps_order 5 1%nat (Reactor.alarm 3 0%nat r0).2
             (mkReactorAlarm 5 None 1%nat) r2).
    by vm_compute.
  - eexists _, _. split; [by vm_compute|]. split; [done|]. split; [done|].
    simpl. intros Hs.
    apply Sorted_inv in Hs as [Hs _]. apply Sorted_inv in Hs as [_ Hhd].
    apply HdRel_inv in Hhd. unfold Reactor.deadline_le in Hhd.
    simpl in Hhd. lia.
Qed.

(** C10.  Scheduling is not total when deadlines collide: a second
    [alarm] with the deadline of the first and another callback raises
    [TypeError], and so does a second [periodic_alarm] with the same
    deadline and period and another callback. *)
Theorem alarm_at_used_deadline_raises {C H} `{EqDecision C}
    (r : Reactor C H) (d now p : Z) (cb1 cb2 : C) :
  _alarms r = [] → cb1 ≠ cb2 →
  (∃ r1, Reactor.alarm d cb1 r = (Ret (mkReactorAlarm d None cb1), r1) ∧
     ∃ e r2, Reactor.alarm d cb2 r1 = (Raise e, r2) ∧
             exn_class e = "TypeError") ∧
  (∃ r1, Reactor.periodic_alarm now p cb1 r
           = (Ret (mkReactorAlarm (now + p) (Some p) cb1), r1) ∧
     ∃ e r2, Reactor.periodic_alarm now p cb2 r1 = (Raise e, r2) ∧
             exn_class e = "TypeError").
Proof.
  intros Hl Hne. split.
  - unfold Reactor.alarm, Reactor._signal, Reactor.sort_alarms. py_unfold.
    simpl. rewrite Hl. simpl. eexists. split; [done|]. simpl.
    unfold Reactor.alarm_lt. simpl.
    rewrite !decide_True by done. rewrite decide_False by done.
    by eexists _, _.
  - unfold Reactor.periodic_alarm, Reactor._signal, Reactor.sort_alarms.
    py_unfold. simpl. rewrite Hl. simpl. eexists. split; [done|]. simpl.
    unfold Reactor.alarm_lt. simpl.
    rewrite !decide_True by done. rewrite decide_False by done.
    by eexists _, _.
Qed.

Lemma alarm_at_used_deadline_raises_witness :
  let r : Reactor nat nat := (Reactor.init 3 4).2 in
  (∃ r1, Reactor.alarm 7 0%nat r = (Ret (mkReactorAlarm 7 None 0%nat), r1) ∧
     ∃ e r2, Reactor.alarm 7 1%nat r1 = (Raise e, r2) ∧
             exn_class e = "TypeError") ∧
  (∃ r1, Reactor.periodic_alarm 2 5 0%nat r
           = (Ret (mkReactorAlarm (2 + 5) (Some 5%Z) 0%nat), r1) ∧
     ∃ e r2, Reactor.periodic_alarm 2 5 1%nat r1 = (Raise e, r2) ∧
             exn_class e = "TypeError").
Proof.
  apply (alarm_at_used_deadline_raises (Reactor.init 3 4).2 7 2 5 0%nat 1%nat).
  - reflexivity.
  - lia.
Defined.

(** The same collision inside the loop: two periodic alarms of period 5
    armed at clock readings 0 and 5; when the first is due it is put back
    at deadline 10, where the second waits, and the sort raises under the
    lock, outside the [try] that guards the callback. *)
Example reschedule_onto_used_deadline_raises :
  let r0 : Reactor nat nat := (Reactor.init 3 4).2 in
  let r2 := (Reactor.periodic_alarm 5 5 1%nat
               (Reactor.periodic_alarm 0 5 0%nat r0).2).2 in
  _alarms r2 = [mkReactorAlarm 5 (Some 5%Z) 0%nat;
                mkReactorAlarm 10 (Some 5%Z) 1%nat] ∧
  (Reactor.expire 7 r2).1
  = Raise (TypeError "'<' not supported between instances of 'function' and 'function'").
Proof. by vm_compute. Qed.

(** C2 (as stated, refuted).  On a fresh reactor, [register(7, c1)]
    followed by [register(7, c2)]: the second call does not succeed, it
    raises [FileExistsError]. *)
Lemma register_twice_does_not_succeed :
  let r0 : Reactor nat nat := (Reactor.init 3 4).2 in
  let r1 := (Reactor.register 7 (Handler 1%nat) 17 r0).2 in
  (Reactor.register 7 (Handler 1%nat) 17 r0).1 = Ret tt ∧
  (Reactor.register 7 (Handler 2%nat) 17 r1).1 = Raise FileExistsError ∧
  (Reactor.register 7 (Handler 2%nat) 17 r1).1 ≠ Ret tt.
Proof. by vm_compute. Qed.

(** C2 (amended).  After [register(fd, c1)] has succeeded, a second
    [register(fd, c2)] raises [FileExistsError], but only after it has
    overwritten the handler: from then on [c2] is what the run loop calls
    when [fd] is ready.  [unregister] of a descriptor that is not
    registered raises. *)
Theorem register_again_replaces_then_raises {C H W} `{EqDecision C}
    (r : Reactor C H) (fd ev1 ev2 : Z) (c1 c2 : H) :
  (Reactor.register fd (Handler c1) ev1 r).1 = Ret tt →
  let r1 := (Reactor.register fd (Handler c1) ev1 r).2 in
  (∃ r2,
     Reactor.register fd (Handler c2) ev2 r1 = (Raise FileExistsError, r2) ∧
     _epoll_map r2 !! fd = Some (Handler c2) ∧
     ∀ (reactor_of : W → Reactor C H) call_handler (event : Z) (w : W),
       reactor_of w = r2 →
       Reactor.call_ready reactor_of (λ r w, w) call_handler fd event w
       = call_handler c2 event w) ∧
  (∀ (r' : Reactor C H) (fd' : Z),
     _epoll r' !! fd' = None ∨ _epoll_map r' !! fd' = None →
     ∃ e r'', Reactor.unregister fd' r' = (Raise e, r'')).
Proof.
  intros Hok r1. split.
  - subst r1. revert Hok.
    unfold Reactor.register, Reactor.epoll_register. py_unfold. simpl.
    destruct (_epoll r !! fd) eqn:Hfd; [done|]. intros _. simpl.
    rewrite lookup_insert_eq. eexists. split; [done|]. simpl.
    split; [by rewrite lookup_insert_eq|].
    intros reactor_of call_handler event w Hw.
    unfold Reactor.call_ready. py_unfold. rewrite Hw. simpl.
    by rewrite lookup_insert_eq.
  - intros r' fd' Hno.
    unfold Reactor.unregister, Reactor.epoll_unregister. py_unfold.
    destruct (_epoll r' !! fd') eqn:Hfd; [|by eauto].
    destruct Hno as [|Hmap]; [done|]. simpl. rewrite Hmap. by eauto.
Qed.

Lemma register_again_replaces_then_raises_witness :
  let r : Reactor nat nat := (Reactor.init 3 4).2 in
  let r1 := (Reactor.register 7 (Handler 1%nat) 17 r).2 in
  (∃ r2,
     Reactor.register 7 (Handler 2%nat) 17 r1 = (Raise FileExistsError, r2) ∧
     _epoll_map r2 !! 7%Z = Some (Handler 2%nat) ∧
     ∀ (reactor_of : unit → Reactor nat nat) call_handler (event : Z) (w : unit),
       reactor_of w = r2 →
       Reactor.call_ready reactor_of (λ r w, w) call_handler 7 event w
       = call_handler 2%nat event w) ∧
  (∀ (r' : Reactor nat nat) (fd' : Z),
     _epoll r' !! fd' = None ∨ _epoll_map r' !! fd' = None →
     ∃ e r'', Reactor.unregister fd' r' = (Raise e, r'')).
Proof.
  apply (register_again_replaces_then_raises (W:=unit)
           (Reactor.init (C:=nat) (H:=nat) 3 4).2 7 17 17 1%nat 2%nat).
  reflexivity.
Defined.

(** ** The run loop: exceptions of the callbacks *)

Section run_facts.
Context {C H W : Type} `{EqDecision C}.
Variable reactor_of : W → Reactor C H.
Variable with_reactor : Reactor C H → W → W.
Variable print : string → W → W.
Variable call_callback : C → py W unit.
Variable call_handler : H → Z → py W unit.

#[local] Abbreviation try_except := (Reactor.try_except print).
#[local] Abbreviation ignoring := (Reactor.ignoring print).
#[local] Abbreviation call_ready :=
  (Reactor.call_ready reactor_of with_reactor call_handler).
#[local] Abbreviation dispatch :=
  (Reactor.dispatch reactor_of with_reactor print call_handler).
#[local] Abbreviation drain :=
  (Reactor.drain reactor_of with_reactor print call_callback).
#[local] Abbreviation _run :=
  (Reactor._run reactor_of with_reactor print call_callback call_handler).

(* what the callbacks raise is an instance of Exception *)
Hypothesis callbacks_raise_Exception : ∀ c w e w',
  call_callback c w = (Raise e, w') → exn_is_Exception e = true.
Hypothesis handlers_raise_Exception : ∀ h ev w e w',
  call_handler h ev w = (Raise e, w') → exn_is_Exception e = true.

Lemma try_except_catches (m : py W unit) w e w' :
  m w = (Raise e, w') → exn_is_Exception e = true →
  try_except m w = (Ret tt, ignoring e w').
Proof. unfold Reactor.try_except. by intros -> ->. Qed.

Lemma call_ready_raises_Exception fileno event w e w' :
  call_ready fileno event w = (Raise e, w') → exn_is_Exception e = true.
Proof.
  unfold Reactor.call_ready. py_unfold.
  destruct (_epoll_map (reactor_of w) !! fileno) as [[|h]|].
  - unfold Reactor.on_reactor, Reactor._control_ready. py_unfold.
    by destruct (_control_pipe (reactor_of w)).
  - apply handlers_raise_Exception.
  - by intros [= <- _].
Qed.

Lemma try_call_ready_never_raises fileno event w e w' :
  try_except (call_ready fileno event) w ≠ (Raise e, w').
Proof.
  unfold Reactor.try_except.
  destruct (call_ready fileno event w) as [[[]|e1| |] w1] eqn:Hc; try done.
  apply call_ready_raises_Exception in Hc. by rewrite Hc.
Qed.

Lemma try_call_callback_never_raises c w e w' :
  try_except (call_callback c) w ≠ (Raise e, w').
Proof.
  unfold Reactor.try_except.
  destruct (call_callback c w) as [[[]|e1| |] w1] eqn:Hc; try done.
  apply callbacks_raise_Exception in Hc. by rewrite Hc.
Qed.

Lemma dispatch_never_raises events w e w' :
  dispatch events w ≠ (Raise e, w').
Proof.
  revert w. induction events as [|[fileno event] events IH]; intros w.
  - done.
  - simpl. py_unfold.
    pose proof (try_call_ready_never_raises fileno event w) as Hno.
    by destruct (try_except _ w) as [[[]|e1| |] w1].
Qed.

(* the events after a part of the list that has been gone through *)
Lemma dispatch_app events1 events2 w w0 :
  dispatch events1 w = (Ret tt, w0) →
  dispatch (events1 ++ events2) w = dispatch events2 w0.
Proof.
  revert w. induction events1 as [|[fileno event] events1 IH]; intros w.
  - by intros [= ->].
  - simpl. py_unfold.
    destruct (try_except _ w) as [[[]|e1| |] w1]; try done.
    apply IH.
Qed.

(* one ready descriptor whose handler raises *)
Lemma dispatch_raising_handler fileno event events w e w1 :
  call_ready fileno event w = (Raise e, w1) →
  dispatch ((fileno, event) :: events) w = dispatch events (ignoring e w1).
Proof.
  intros Hc. simpl. py_unfold.
  erewrite try_except_catches;
    [done|done|by eapply call_ready_raises_Exception].
Qed.

(* the list of ready descriptors is gone through to its end, unless a
   handler does not come back *)
Lemma dispatch_outcome events w :
  (∃ w', dispatch events w = (Ret tt, w')) ∨
  (∃ events1 fileno event events2 w0 x w1,
     events = events1 ++ (fileno, event) :: events2 ∧
     dispatch events1 w = (Ret tt, w0) ∧
     call_ready fileno event w0 = (x, w1) ∧
     (x = Blocked ∨ x = NoFuel) ∧
     dispatch events w = (x, w1)).
Proof.
  revert w. induction events as [|[fileno event] events IH]; intros w.
  - left. by eexists.
  - destruct (call_ready fileno event w) as [x w1] eqn:Hc.
    assert (∀ w2, try_except (call_ready fileno event) w = (Ret tt, w2) →
              (∃ w', dispatch ((fileno, event) :: events) w = (Ret tt, w')) ∨
              (∃ events1 fileno0 event0 events2 w0 x0 w3,
                 (fileno, event) :: events
                 = events1 ++ (fileno0, event0) :: events2 ∧
                 dispatch events1 w = (Ret tt, w0) ∧
                 call_ready fileno0 event0 w0 = (x0, w3) ∧
                 (x0 = Blocked ∨ x0 = NoFuel) ∧
                 dispatch ((fileno, event) :: events) w = (x0, w3))) as Hgo.
    { intros w2 Ht.
      assert (∀ rest, dispatch ((fileno, event) :: rest) w = dispatch rest w2)
        as Hstep.
      { intros rest. simpl. py_unfold. by rewrite Ht. }
      destruct (IH w2) as [[w' Hd] | (ev1 & f0 & e0 & ev2 & w0 & x0 & w3 &
                                      -> & Hd1 & Hc0 & Hx0 & Hd)].
      - left. exists w'. by rewrite Hstep.
      - right. exists ((fileno, event) :: ev1), f0, e0, ev2, w0, x0, w3.
        split_and!; try done.
        + by rewrite Hstep.
        + by rewrite Hstep. }
    destruct x as [[]|e| |].
    + apply (Hgo w1). unfold Reactor.try_except. by rewrite Hc.
    + apply (Hgo (ignoring e w1)). apply try_except_catches; [done|].
      by eapply call_ready_raises_Exception.
    + right. exists [], fileno, event, events, w, Blocked, w1.
      split_and!; try done; [by left|].
      simpl. py_unfold. unfold Reactor.try_except. by rewrite Hc.
    + right. exists [], fileno, event, events, w, NoFuel, w1.
      split_and!; try done; [by right|].
      simpl. py_unfold. unfold Reactor.try_except. by rewrite Hc.
Qed.

(* one alarm whose callback raises *)
Lemma drain_raising_callback now clock w a r e w1 :
  Reactor.expire now (reactor_of w) = (Ret (Fire a), r) →
  call_callback (callback a) (with_reactor r w) = (Raise e, w1) →
  drain (now :: clock) w = drain clock (ignoring e w1).
Proof.
  intros He Hc. simpl. py_unfold.
  unfold Reactor.on_reactor. rewrite He.
  erewrite try_except_catches;
    [done|done|by eapply callbacks_raise_Exception].
Qed.

(* an exception that leaves the alarm loop comes from the work on the
   alarm list, at a state the loop has reached *)
Lemma drain_raises_from_sort clock w e w' :
  drain clock w = (Raise e, w') →
  ∃ clock1 now clock2 w0 r',
    clock = clock1 ++ now :: clock2 ∧
    drain clock1 w = (NoFuel, w0) ∧
    Reactor.expire now (reactor_of w0) = (Raise e, r') ∧
    w' = with_reactor r' w0.
Proof.
  revert w. induction clock as [|now clock IH]; intros w.
  - simpl. by destruct (_alarms (reactor_of w)).
  - cbn [Reactor.drain]. py_unfold. unfold Reactor.on_reactor.
    destruct (Reactor.expire now (reactor_of w)) as [[[t|a]|e1| |] r1] eqn:He;
      try done.
    + pose proof (try_call_callback_never_raises (callback a)
                    (with_reactor r1 w)) as Hno.
      destruct (try_except _ _) as [[[]|e2| |] w2] eqn:Ht; try done.
      * intros Hd.
        destruct (IH _ Hd) as (c1 & now' & c2 & w0 & r' & -> & Hd1 & He' & ->).
        exists (now :: c1), now', c2, w0, r'. split_and!; try done.
        cbn [Reactor.drain]. py_unfold. unfold Reactor.on_reactor.
        by rewrite He, Ht.
      * intros [= -> ->]. by edestruct Hno.
    + intros [= -> <-].
      exists [], now, clock, w, r1. split_and!; try done.
      simpl. destruct (_alarms (reactor_of w)) eqn:Hl; [|done].
      unfold Reactor.expire in He. by rewrite Hl in He.
Qed.

(* one turn of the loop that is not over *)
Lemma _run_turn clock events turns w :
  _done (reactor_of w) = false →
  _run ((clock, events) :: turns) w
  = (drain clock;; dispatch events;; _run turns) w.
Proof. intros Hdone. cbn [Reactor._run]. by rewrite Hdone. Qed.

Lemma _run_raises_from_sort turns w e w' :
  _run turns w = (Raise e, w') →
  ∃ turns1 clock1 now clock2 events turns2 wa w0 r',
    turns = turns1 ++ (clock1 ++ now :: clock2, events) :: turns2 ∧
    _run turns1 w = (NoFuel, wa) ∧
    drain clock1 wa = (NoFuel, w0) ∧
    Reactor.expire now (reactor_of w0) = (Raise e, r') ∧
    w' = with_reactor r' w0.
Proof.
  revert w. induction turns as [|[clock events] turns IH]; intros w.
  - simpl. by destruct (_done (reactor_of w)).
  - destruct (_done (reactor_of w)) eqn:Hdone.
    { simpl. by rewrite Hdone. }
    rewrite _run_turn by done. py_unfold.
    destruct (drain clock w) as [[t|e1| |] w1] eqn:Hd; try done.
    + pose proof (dispatch_never_raises events w1) as Hno.
      destruct (dispatch events w1) as [[[]|e2| |] w2] eqn:Hdi; try done.
      * intros Hr.
        destruct (IH _ Hr)
          as (t1 & c1 & now & c2 & evs & t2 & wa & w0 & r' &
              -> & Hr1 & Hd1 & He & ->).
        exists ((clock, events) :: t1), c1, now, c2, evs, t2, wa, w0, r'.
        split_and!; try done.
        rewrite _run_turn by done. py_unfold. by rewrite Hd, Hdi.
      * intros [= -> ->]. by edestruct Hno.
    + intros [= -> ->].
      destruct (drain_raises_from_sort _ _ _ _ Hd)
        as (c1 & now & c2 & w0 & r' & -> & Hd1 & He & ->).
      exists [], c1, now, c2, events, turns, w, w0, r'.
      split_and!; try done.
      simpl. by rewrite Hdone.
Qed.

(** C5.  An exception (an instance of [Exception]) raised by an alarm
    callback or by the handler of a ready descriptor is caught and
    logged: the line [Ignoring <e> (<class ...>)] is printed, then the
    traceback.  The loop then goes on where it was:
    - in the [for] loop over the ready descriptors, with the descriptors
      after the one whose handler raised;
    - in the alarm loop, with the next reading of the clock;
    - in [_run], with the rest of the turn (the ready descriptors left,
      or the alarms left and then the poll) and then the next turns.
    The ready descriptors are gone through to the last unless a handler
    does not come back.  No such exception leaves [_run]: an exception
    that does leave it was raised by the loop's own work on the alarm
    list, under the lock, in a state the loop had reached. *)
Theorem handler_exceptions_stay_in_the_loop :
  let logged (e : exn) (w : W) : W :=
    print (format_exception e)
      (print ("Ignoring " +:+ exn_text e
              +:+ " (<class '" +:+ exn_class e +:+ "'>)") w) in
  (∀ events1 fileno event events2 w w0 e w1,
     dispatch events1 w = (Ret tt, w0) →
     call_ready fileno event w0 = (Raise e, w1) →
     dispatch (events1 ++ (fileno, event) :: events2) w
     = dispatch events2 (logged e w1)) ∧
  (∀ now clock w a r e w1,
     Reactor.expire now (reactor_of w) = (Ret (Fire a), r) →
     call_callback (callback a) (with_reactor r w) = (Raise e, w1) →
     drain (now :: clock) w = drain clock (logged e w1)) ∧
  (∀ clock events1 fileno event events2 turns w timeout_s wa w0 e w1,
     _done (reactor_of w) = false →
     drain clock w = (Ret timeout_s, wa) →
     dispatch events1 wa = (Ret tt, w0) →
     call_ready fileno event w0 = (Raise e, w1) →
     _run ((clock, events1 ++ (fileno, event) :: events2) :: turns) w
     = (dispatch events2;; _run turns) (logged e w1)) ∧
  (∀ now clock events turns w a r e w1,
     _done (reactor_of w) = false →
     Reactor.expire now (reactor_of w) = (Ret (Fire a), r) →
     call_callback (callback a) (with_reactor r w) = (Raise e, w1) →
     _run ((now :: clock, events) :: turns) w
     = (drain clock;; dispatch events;; _run turns) (logged e w1)) ∧
  (∀ events w,
     (∃ w', dispatch events w = (Ret tt, w')) ∨
     (∃ events1 fileno event events2 w0 x w1,
        events = events1 ++ (fileno, event) :: events2 ∧
        dispatch events1 w = (Ret tt, w0) ∧
        call_ready fileno event w0 = (x, w1) ∧
        (x = Blocked ∨ x = NoFuel) ∧
        dispatch events w = (x, w1))) ∧
  (∀ turns w e w',
     _run turns w = (Raise e, w') →
     ∃ turns1 clock1 now clock2 events turns2 wa w0 r',
       turns = turns1 ++ (clock1 ++ now :: clock2, events) :: turns2 ∧
       _run turns1 w = (NoFuel, wa) ∧
       drain clock1 wa = (NoFuel, w0) ∧
       Reactor.expire now (reactor_of w0) = (Raise e, r') ∧
       w' = with_reactor r' w0).
Proof.
  intros logged. split_and!.
  - intros events1 fileno event events2 w w0 e w1 Hd Hc.
    rewrite (dispatch_app _ _ _ _ Hd).
    by apply dispatch_raising_handler.
  - apply drain_raising_callback.
  - intros clock events1 fileno event events2 turns w t wa w0 e w1
      Hdone Hdr Hd Hc.
    rewrite _run_turn by done. py_unfold. rewrite Hdr.
    rewrite (dispatch_app _ _ _ _ Hd).
    by rewrite (dispatch_raising_handler _ _ _ _ _ _ Hc).
  - intros now clock events turns w a r e w1 Hdone He Hc.
    rewrite _run_turn by done. py_unfold.
    by rewrite (drain_raising_callback _ _ _ _ _ _ _ He Hc).
  - apply dispatch_outcome.
  - apply _run_raises_from_sort.
Qed.
End run_facts.

Lemma handler_exceptions_stay_in_the_loop_witness :
  let W : Type := (Reactor nat nat * list string)%type in
  let with_reactor := λ (r : Reactor nat nat) (w : W), (r, w.2) in
  let print := λ (line : string) (w : W), (w.1, w.2 ++ [line]) in
  let call_callback : nat → py W unit :=
    λ c w,
      if decide (c = 1%nat) then (Raise (TypeError "in a callback"), w)
      else (Ret tt, print "the second callback ran" w) in
  let call_handler : nat → Z → py W unit :=
    λ h ev w,
      if decide (h = 1%nat) then (Raise (Exn "ValueError" "in a handler" true), w)
      else if decide (h = 2%nat) then (Ret tt, print "the second handler ran" w)
      else (Ret tt, ((Reactor.close w.1).2, w.2)) in
  let r : Reactor nat nat :=
    (Reactor.alarm 20 2%nat
       (Reactor.alarm 10 1%nat
          (Reactor.register 7 (Handler 3%nat) 17
             (Reactor.register 6 (Handler 2%nat) 17
                (Reactor.register 5 (Handler 1%nat) 17
                   (Reactor.init 3 4).2).2).2).2).2).2 in
  let turns : list (list Z * list (Z * Z)) :=
    [([12; 25; 26], [(5, 1); (6, 1)]); ([30], [(7, 1)])]%Z in
  let run :=
    Reactor._run fst with_reactor print call_callback call_handler turns
      (r, []) in
  (∀ c w e w', call_callback c w = (Raise e, w') → exn_is_Exception e = true) ∧
  (∀ h ev w e w', call_handler h ev w = (Raise e, w') →
                  exn_is_Exception e = true) ∧
  run.1 = Ret tt ∧
  run.2.2 = ["Ignoring in a callback (<class 'TypeError'>)";
             format_exception (TypeError "in a callback");
             "the second callback ran";
             "Ignoring in a handler (<class 'ValueError'>)";
             format_exception (Exn "ValueError" "in a handler" true);
             "the second handler ran"] ∧
  _alarms run.2.1 = [] ∧ _done run.2.1 = true.
Proof.
  intros W with_reactor print call_callback call_handler r turns run.
  assert (∀ c w e w', call_callback c w = (Raise e, w') →
                      exn_is_Exception e = true) as Hcb.
  { intros c w e w'. unfold call_callback.
    case_decide; [|done]. by intros [= <- _]. }
  assert (∀ h ev w e w', call_handler h ev w = (Raise e, w') →
                         exn_is_Exception e = true) as Hh.
  { intros h ev w e w'. unfold call_handler.
    repeat case_decide; try done. by intros [= <- _]. }
  destruct (handler_exceptions_stay_in_the_loop
              fst with_reactor print call_callback call_handler Hcb Hh)
    as (_ & _ & Hhandler & Hcallback & _ & _).
  assert (run
          = (Reactor.drain fst with_reactor print call_callback [25; 26]%Z;;
             Reactor.dispatch fst with_reactor print call_handler
               [(5, 1); (6, 1)]%Z;;
             Reactor._run fst with_reactor print call_callback call_handler
               [([30], [(7, 1)])]%Z)
              (print (format_exception (TypeError "in a callback"))
                 (print "Ignoring in a callback (<class 'TypeError'>)"
                    (with_reactor (Reactor.expire 12 r).2 (r, [])))))
    as Hrun1.
  { apply (Hcallback 12%Z [25; 26]%Z [(5, 1); (6, 1)]%Z [([30], [(7, 1)])]%Z
             (r, []) (mkReactorAlarm 10 None 1%nat) (Reactor.expire 12 r).2
             (TypeError "in a callback")
             (with_reactor (Reactor.expire 12 r).2 (r, [])));
      vm_compute; reflexivity. }
  split_and!; [exact Hcb|exact Hh|..]; rewrite Hrun1; vm_compute; reflexivity.
Defined.

(** A run of the loop over two ready descriptors: the handler of the
    first raises [KeyError], which is printed, and the handler of the
    second is called all the same. *)
Example dispatch_goes_on_after_a_raise :
  let log := λ (line : string) (w : Reactor nat nat * list string),
               (w.1, w.2 ++ [line]) in
  let call_handler : nat → Z → py (Reactor nat nat * list string) unit :=
    λ h ev w,
      if decide (h = 1%nat) then (Raise (KeyError "missing"), w)
      else (Ret tt, log "the second handler ran" w) in
  let r : Reactor nat nat :=
    (Reactor.register 6 (Handler 2%nat) 17
       (Reactor.register 5 (Handler 1%nat) 17 (Reactor.init 3 4).2).2).2 in
  Reactor.dispatch fst (λ r w, (r, w.2)) log call_handler
    [(5, 1); (6, 1)]%Z (r, [])
  = (Ret tt,
     (r, ["Ignoring missing (<class 'KeyError'>)";
          format_exception (KeyError "missing");
          "the second handler ran"])).
Proof. vm_compute. reflexivity. Qed.

(** ** The operating system *)

Lemma first_free_spec {V} (candidates : list Z) (m : gmap Z V) :
  (∃ n, n ∈ candidates ∧ m !! n = None) →
  m !! os.first_free candidates m = None.
Proof.
  induction candidates as [|c candidates IH]; intros (n & Hin & Hn).
  - by apply elem_of_nil in Hin.
  - simpl. destruct (m !! c) eqn:Hc; [|done].
    apply IH. exists n. split; [|done].
    apply elem_of_cons in Hin as [->|Hin]; [congruence|done].
Qed.

(** The lowest free number is free: of [size m + 1] candidates, one is
    not a key of [m]. *)
Lemma lowest_free_spec {V} (m : gmap Z V) : m !! os.lowest_free m = None.
Proof.
  apply first_free_spec.
  set (candidates := Z.of_nat <$> seq 0 (S (size m))).
  destruct (decide (Exists (λ n, ¬ is_Some (m !! n)) candidates)) as [Hex|Hall].
  - apply Exists_exists in Hex as (n & Hin & Hn).
    exists n. split; [done|]. by apply eq_None_not_Some.
  - exfalso. apply not_Exists_Forall in Hall; [|intros n; apply _].
    assert (list_to_set candidates ⊆ dom m) as Hsub.
    { intros n Hn%elem_of_list_to_set. rewrite Forall_forall in Hall.
      apply elem_of_dom. specialize (Hall n Hn). simpl in Hall.
      by apply dec_stable. }
    apply subseteq_size in Hsub.
    rewrite size_dom, size_list_to_set in Hsub.
    + subst candidates. rewrite length_fmap, length_seq in Hsub. lia.
    + apply NoDup_fmap_2; [apply _|apply NoDup_seq].
Qed.

(** ** The runner and its checkbox *)

Arguments os.lowest_free : simpl never.
Arguments CHUNK : simpl never.
Arguments format_exception : simpl never.
Arguments repr_command : simpl never.
Arguments quoted : simpl never.

Ltac world_unfold :=
  unfold emit, print, in_os, attr, in_reactor, Reactor.on_reactor in *;
  py_unfold.

Lemma str_take_nonempty (s : string) :
  s ≠ EmptyString → str_take CHUNK s ≠ EmptyString.
Proof.
  by destruct s.
Qed.

(** [start] when the command cannot be spawned: nothing is raised, the
    runner stays without a process, and the text of the failure waits in
    the stderr pipe, whose write end is closed. *)
Lemma start_spawn_fails w e :
  _process (runner w) = None →
  spawn_outcome w = Fails e →
  exn_is_Exception e = true →
  registered_are_open w →
  ∃ w1 fe pe,
    Runner.start w = (Ret tt, w1) ∧
    _process (runner w1) = None ∧
    checkbox w1 = checkbox w ∧
    emitted w1 = emitted w ++ [(_control_name (checkbox w) +:+ "-reset",
                                Reset (_control_name (checkbox w)))] ∧
    _stderr_r (runner w1) = Some fe ∧
    os_fds (opsys w1) !! fe = Some (PipeR pe) ∧
    os_pipes (opsys w1) !! pe = Some (mkPipe (format_exception e) 0) ∧
    _epoll_map (reactor w1) !! fe = Some (Handler Runner_stderr).
Proof.
  destruct w as [[cmd pr envu cwd so sw eo ew] cb [al cr cw cp ep em dn]
                 [fds pipes procs environ exec] emi pri].
  unfold registered_are_open, spawn_outcome. simpl. intros -> Hexec He Hwf.
  unfold Runner.start, Runner._start, os.pipe, os.Popen, os.write, os.close,
    Reactor.register, Reactor.epoll_register.
  world_unfold. cbn.
  set (po := os.lowest_free pipes).
  set (fo := os.lowest_free fds).
  set (pipes1 := <[po := _]> pipes).
  set (fds1 := <[fo := PipeR po]> fds).
  set (wo := os.lowest_free fds1).
  set (fds2 := <[wo := PipeW po]> fds1).
  set (pe := os.lowest_free pipes1).
  set (fe := os.lowest_free fds2).
  set (fds3 := <[fe := PipeR pe]> fds2).
  set (we := os.lowest_free fds3).
  set (fds4 := <[we := PipeW pe]> fds3).
  pose proof (lowest_free_spec fds) as Hfo. fold fo in Hfo.
  pose proof (lowest_free_spec fds1) as Hwo. fold wo in Hwo.
  pose proof (lowest_free_spec fds2) as Hfe. fold fe in Hfe.
  pose proof (lowest_free_spec fds3) as Hwe. fold we in Hwe.
  pose proof (lowest_free_spec pipes1) as Hpe. fold pe in Hpe.
  subst fds3 fds2 fds1 pipes1.
  apply lookup_insert_None in Hwo as [Hwo ?].
  apply lookup_insert_None in Hfe as [Hfe ?].
  apply lookup_insert_None in Hfe as [Hfe ?].
  apply lookup_insert_None in Hwe as [Hwe ?].
  apply lookup_insert_None in Hwe as [Hwe ?].
  apply lookup_insert_None in Hwe as [Hwe ?].
  apply lookup_insert_None in Hpe as [Hpe ?].
  assert (ep !! fo = None) as Hepo.
  { apply eq_None_not_Some. intros Hs%Hwf. rewrite Hfo in Hs. by destruct Hs. }
  assert (ep !! fe = None) as Hepe.
  { apply eq_None_not_Some. intros Hs%Hwf. rewrite Hfe in Hs. by destruct Hs. }
  rewrite Hepo. cbn.
  rewrite lookup_insert_ne, Hepe by done. cbn.
  rewrite Hexec, He. cbn.
  subst fds4. rewrite lookup_insert_eq. cbn.
  rewrite lookup_insert_ne, lookup_insert_ne, lookup_insert_eq by done. cbn.
  rewrite lookup_delete_ne, lookup_insert_eq by done. cbn.
  eexists _, fe, pe. split; [reflexivity|]. cbn.
  split_and!; try done.
  - by rewrite !lookup_delete_ne, lookup_insert_ne, lookup_insert_eq.
  - rewrite lookup_alter_eq, lookup_alter_ne, lookup_alter_eq,
      lookup_insert_eq by done.
    done.
  - by rewrite lookup_insert_eq.
Qed.

(** A bound method called on a pipe at end-of-file when the runner holds
    no process: the descriptor is unregistered and closed, nothing else. *)
Lemma eof_idle depth m event fd w :
  eof_at m fd w → _process (runner w) = None →
  call_method depth m event w
  = (Ret tt,
     mkWorld (runner w) (checkbox w)
       (Reactor.set_epoll_map (delete fd)
          (Reactor.set_epoll (delete fd) (reactor w)))
       (os.set_fds (delete fd) (opsys w))
       (emitted w) (printed w ++ [closed_line m])).
Proof.
  destruct w as [[cmd pr envu cwd so sw eo ew] cb [al cr cw cp ep em dn]
                 [fds pipes procs environ exec] emi pri].
  unfold eof_at. simpl.
  intros (Hfd & (p & Hfds & Hp) & [ev Hep] & Hem) ->.
  destruct m; simpl in Hfd; subst.
  all: unfold call_method, Runner.stdout, Runner.stderr, os.read, os.close,
         Reactor.unregister, Reactor.epoll_unregister.
  all: world_unfold; cbn.
  all: rewrite Hfds; cbn; rewrite Hp; cbn; rewrite Hep; cbn.
  all: rewrite Hem; cbn; rewrite Hfds; by cbn.
Qed.

(** The same call when the runner still holds its child, which has
    ended: the descriptor is unregistered and closed, and [stop] runs
    through [_stop] once; the [stop] that the checkbox calls back from
    [stopped] finds no process and only prints. *)
Lemma eof_running d m event fd pid w :
  eof_at m fd w → child_ended pid w →
  call_method (S d) m event w
  = (Ret tt,
     mkWorld (Runner.set_process None (runner w))
       (Checkbox.set_value false (checkbox w))
       (Reactor.set_epoll_map (delete fd)
          (Reactor.set_epoll (delete fd) (reactor w)))
       (os.set_fds (delete fd) (opsys w))
       (emitted w ++
          [(_control_name (checkbox w) +:+ "-value",
            Value (mkReply (_control_name (checkbox w)) false true))])
       (printed w ++
          [closed_line m;
           "Stopping " +:+ quoted (repr_command (_command (runner w)));
           "Not currently running "
             +:+ quoted (repr_command (_command (runner w)))
             +:+ " -- ignoring"])).
Proof.
  destruct w as [[cmd pr envu cwd so sw eo ew] cb [al cr cw cp ep em dn]
                 [fds pipes procs environ exec] emi pri].
  unfold eof_at, child_ended. simpl.
  intros (Hfd & (p & Hfds & Hp) & [ev Hep] & Hem)
         (-> & (out & err & Hpid) & -> & ->).
  destruct m; simpl in Hfd; subst.
  all: unfold call_method, control_stopped, Checkbox.stopped, Checkbox.update.
  all: unfold Runner.stdout, Runner.stderr, Runner.stop, Runner._stop.
  all: unfold os.read, os.close, os.terminate, os.communicate,
         Reactor.unregister, Reactor.epoll_unregister.
  all: world_unfold; cbn.
  all: rewrite Hfds; cbn; rewrite Hp; cbn; rewrite Hep; cbn.
  all: rewrite Hem; cbn; rewrite Hfds; cbn.
  all: rewrite Hpid; cbn; rewrite Hpid; cbn.
  all: case_decide; [done|]; cbn.
  all: case_decide; [done|]; cbn.
  all: unfold Runner.update, Runner.stop; world_unfold; cbn.
  all: by rewrite <-!app_assoc.
Qed.

Lemma eof_at_after_close m fd fd' w rn cb em pr :
  fd' ≠ fd → eof_at m fd w →
  read_end m rn = read_end m (runner w) →
  eof_at m fd
    (mkWorld rn cb
       (Reactor.set_epoll_map (delete fd')
          (Reactor.set_epoll (delete fd') (reactor w)))
       (os.set_fds (delete fd') (opsys w)) em pr).
Proof.
  unfold eof_at. intros Hne (Hfd & (p & Hfds & Hp) & Hep & Hem) Hrn. simpl.
  split_and!.
  - congruence.
  - exists p. by rewrite lookup_delete_ne.
  - by rewrite lookup_delete_ne.
  - by rewrite lookup_delete_ne.
Qed.

Lemma dispatch_ready_cons depth fd event m events w w1 :
  _epoll_map (reactor w) !! fd = Some (Handler m) →
  call_method depth m event w = (Ret tt, w1) →
  dispatch_ready depth ((fd, event) :: events) w
  = dispatch_ready depth events w1.
Proof.
  intros Hm Hcall. unfold dispatch_ready. simpl.
  unfold Reactor.try_except, Reactor.call_ready. py_unfold.
  by rewrite Hm, Hcall.
Qed.

(** Both handlers at end-of-file, in either order, after the child has
    ended by itself. *)
Lemma two_eofs d m1 m2 fd1 fd2 ev1 ev2 pid w :
  m1 ≠ m2 → child_ended pid w → eof_at m1 fd1 w → eof_at m2 fd2 w →
  ∃ w',
    dispatch_ready (S d) [(fd1, ev1); (fd2, ev2)] w = (Ret tt, w') ∧
    _process (runner w') = None ∧
    _value (checkbox w') = false ∧
    emitted w' = emitted w ++
      [(_control_name (checkbox w) +:+ "-value",
        Value (mkReply (_control_name (checkbox w)) false true))] ∧
    printed w' = printed w ++
      [closed_line m1;
       "Stopping " +:+ quoted (repr_command (_command (runner w)));
       "Not currently running "
         +:+ quoted (repr_command (_command (runner w))) +:+ " -- ignoring";
       closed_line m2].
Proof.
  intros Hm Hchild H1 H2.
  assert (fd1 ≠ fd2) as Hfd.
  { intros ->. destruct H1 as (_ & _ & _ & E1), H2 as (_ & _ & _ & E2).
    congruence. }
  pose proof (eof_running d m1 ev1 fd1 pid w H1 Hchild) as Hfirst.
  erewrite dispatch_ready_cons; [|by apply H1|exact Hfirst].
  set (w1 := mkWorld _ _ _ _ _ _) in *.
  assert (eof_at m2 fd2 w1) as H2'.
  { apply eof_at_after_close; [done|done|by destruct m2]. }
  pose proof (eof_idle (S d) m2 ev2 fd2 w1 H2' eq_refl) as Hsecond.
  erewrite dispatch_ready_cons; [|by apply H2'|exact Hsecond].
  eexists. split; [reflexivity|]. simpl.
  split_and!; try done. by rewrite <-app_assoc.
Qed.

(** C1.  The child has ended by itself and both pipes deliver
    end-of-file: whichever handler runs first goes through [_stop], once
    (one "Stopping" line); the other finds no process and does nothing
    more than close its pipe; the checkbox value becomes false and exactly
    one [<control>-value] broadcast, carrying false, goes out. *)
Theorem child_exit_stops_once d w pid fo fe evo eve events :
  child_ended pid w →
  eof_at Runner_stdout fo w → eof_at Runner_stderr fe w →
  events = [(fo, evo); (fe, eve)] ∨ events = [(fe, eve); (fo, evo)] →
  ∃ w' first second,
    dispatch_ready (S d) events w = (Ret tt, w') ∧
    _process (runner w') = None ∧
    _value (checkbox w') = false ∧
    emitted w' = emitted w ++
      [(_control_name (checkbox w) +:+ "-value",
        Value (mkReply (_control_name (checkbox w)) false true))] ∧
    printed w' = printed w ++
      [closed_line first;
       "Stopping " +:+ quoted (repr_command (_command (runner w)));
       "Not currently running "
         +:+ quoted (repr_command (_command (runner w))) +:+ " -- ignoring";
       closed_line second] ∧
    first ≠ second.
Proof.
  intros Hchild Ho He [-> | ->].
  - destruct (two_eofs d Runner_stdout Runner_stderr fo fe evo eve pid w)
      as (w' & ? & ? & ? & ? & ?); [done..|].
    by exists w', Runner_stdout, Runner_stderr.
  - destruct (two_eofs d Runner_stderr Runner_stdout fe fo eve evo pid w)
      as (w' & ? & ? & ? & ? & ?); [done..|].
    by exists w', Runner_stderr, Runner_stdout.
Qed.

Lemma child_exit_stops_once_witness :
  let w := child_exits 0
             (control_update 2 "enable_iperf3" true
                (enable_iperf3 (Spawns true))).2 in
  ∃ w' first second,
    dispatch_ready 1 [(7, 16); (5, 16)]%Z w = (Ret tt, w') ∧
    _process (runner w') = None ∧
    _value (checkbox w') = false ∧
    emitted w' = emitted w ++
      [(_control_name (checkbox w) +:+ "-value",
        Value (mkReply (_control_name (checkbox w)) false true))] ∧
    printed w' = printed w ++
      [closed_line first;
       "Stopping " +:+ quoted (repr_command (_command (runner w)));
       "Not currently running "
         +:+ quoted (repr_command (_command (runner w))) +:+ " -- ignoring";
       closed_line second] ∧
    first ≠ second.
Proof.
  intros w.
  apply (child_exit_stops_once 0 w 0 5 7 16 16).
  - unfold child_ended. split_and!; try (vm_compute; reflexivity).
    vm_compute. eauto.
  - unfold eof_at. split_and!; try (vm_compute; reflexivity).
    + exists 0%Z. split; vm_compute; reflexivity.
    + vm_compute. eauto.
  - unfold eof_at. split_and!; try (vm_compute; reflexivity).
    + exists 1%Z. split; vm_compute; reflexivity.
    + vm_compute. eauto.
  - by right.
Defined.

(** A chunk of text waiting in the stderr pipe goes out as one
    [<control>-stderr] broadcast. *)
Lemma stderr_forwards stopped event w fe pe text n :
  _stderr_r (runner w) = Some fe →
  os_fds (opsys w) !! fe = Some (PipeR pe) →
  os_pipes (opsys w) !! pe = Some (mkPipe text n) →
  text ≠ EmptyString →
  Runner.stderr stopped event w
  = (Ret tt,
     mkWorld (runner w) (checkbox w) (reactor w)
       (os.set_pipes <[pe := mkPipe (str_drop CHUNK text) n]> (opsys w))
       (emitted w ++
          [(_control_name (checkbox w) +:+ "-stderr",
            Chunk (_control_name (checkbox w)) (str_take CHUNK text))])
       (printed w)).
Proof.
  destruct w as [[cmd pr envu cwd so sw eo ew] cb [al cr cw cp ep em dn]
                 [fds pipes procs environ exec] emi pri].
  simpl. intros -> Hfds Hp Htext.
  unfold Runner.stderr, os.read. world_unfold. cbn.
  rewrite Hfds. cbn. rewrite Hp. cbn.
  pose proof (str_take_nonempty text Htext) as Hchunk.
  destruct text as [|c text]; [done|]. cbn.
  by change (CHUNK =? 0)%N with false.
Qed.

Lemma format_exception_nonempty e : format_exception e ≠ EmptyString.
Proof. by unfold format_exception. Qed.

(** C4.  When spawning the command raises, [start] does not: the
    runner stays without a process, [update] reports false, and the text
    of the failure, written to the stderr pipe before its write end was
    closed, goes out as a non-empty [<control>-stderr] broadcast as soon
    as the reactor finds the pipe readable; the value is false then too. *)
Theorem spawn_failure_surfaces_on_stderr d w e name event :
  _process (runner w) = None →
  spawn_outcome w = Fails e →
  exn_is_Exception e = true →
  registered_are_open w →
  ∃ w1 w2 fe,
    runner_start w = (Ret tt, w1) ∧
    _process (runner w1) = None ∧
    control_update (S (S d)) name true w
      = (Ret (mkReply name false true),
         set_checkbox (Checkbox.set_value false) w1) ∧
    (∃ pe, _stderr_r (runner w1) = Some fe ∧
           os_fds (opsys w1) !! fe = Some (PipeR pe) ∧
           os_pipes (opsys w1) !! pe = Some (mkPipe (format_exception e) 0)) ∧
    dispatch_ready (S d) [(fe, event)]
      (set_checkbox (Checkbox.set_value false) w1) = (Ret tt, w2) ∧
    emitted w2 = emitted w ++
      [(_control_name (checkbox w) +:+ "-reset",
        Reset (_control_name (checkbox w)));
       (_control_name (checkbox w) +:+ "-stderr",
        Chunk (_control_name (checkbox w))
              (str_take CHUNK (format_exception e)))] ∧
    str_take CHUNK (format_exception e) ≠ EmptyString ∧
    _process (runner w2) = None ∧
    _value (checkbox w2) = false.
Proof.
  intros Hidle Hexec He Hwf.
  destruct (start_spawn_fails w e Hidle Hexec He Hwf)
    as (w1 & fe & pe & Hstart & Hp1 & Hcb & Hem & Hfe & Hfds & Hpipe & Hmap).
  set (w1' := set_checkbox (Checkbox.set_value false) w1).
  pose proof (stderr_forwards (control_stopped (S d)) event w1' fe pe
                (format_exception e) 0 Hfe Hfds Hpipe
                (format_exception_nonempty e)) as Hfwd.
  eexists w1, _, fe. split_and!.
  - done.
  - done.
  - unfold control_update, Checkbox.update. simpl.
    unfold Runner.update. world_unfold.
    unfold runner_start in *. rewrite Hstart. simpl. by rewrite Hp1.
  - by exists pe.
  - erewrite (dispatch_ready_cons (S d) fe event Runner_stderr); [|done|].
    + reflexivity.
    + exact Hfwd.
  - simpl. rewrite Hem, Hcb, <-app_assoc. done.
  - apply str_take_nonempty, format_exception_nonempty.
  - done.
  - done.
Qed.

Lemma spawn_failure_surfaces_on_stderr_witness :
  let w := enable_iperf3 (Fails FileNotFoundError) in
  ∃ w1 w2 fe,
    runner_start w = (Ret tt, w1) ∧
    _process (runner w1) = None ∧
    control_update 2 "enable_iperf3" true w
      = (Ret (mkReply "enable_iperf3" false true),
         set_checkbox (Checkbox.set_value false) w1) ∧
    (∃ pe, _stderr_r (runner w1) = Some fe ∧
           os_fds (opsys w1) !! fe = Some (PipeR pe) ∧
           os_pipes (opsys w1) !! pe
           = Some (mkPipe (format_exception FileNotFoundError) 0)) ∧
    dispatch_ready 1 [(fe, 1%Z)]
      (set_checkbox (Checkbox.set_value false) w1) = (Ret tt, w2) ∧
    emitted w2 = emitted w ++
      [(_control_name (checkbox w) +:+ "-reset",
        Reset (_control_name (checkbox w)));
       (_control_name (checkbox w) +:+ "-stderr",
        Chunk (_control_name (checkbox w))
              (str_take CHUNK (format_exception FileNotFoundError)))] ∧
    str_take CHUNK (format_exception FileNotFoundError) ≠ EmptyString ∧
    _process (runner w2) = None ∧
    _value (checkbox w2) = false.
Proof.
  intros w.
  apply (spawn_failure_surfaces_on_stderr 0 w FileNotFoundError
           "enable_iperf3" 1%Z).
  - reflexivity.
  - reflexivity.
  - reflexivity.
  - intros fd [ev Hfd]. vm_compute in Hfd.
    destruct fd as [|[[[]|[]|]|[[]|[]|]|]|]; try discriminate; vm_compute; eauto.
Defined.

(** [start] when the command spawns: one child more, one reset. *)
Lemma start_spawn_succeeds w heeds :
  _process (runner w) = None →
  spawn_outcome w = Spawns heeds →
  registered_are_open w →
  ∃ w1 pid out err,
    Runner.start w = (Ret tt, w1) ∧
    _process (runner w1) = Some pid ∧
    os_procs (opsys w) !! pid = None ∧
    os_procs (opsys w1)
    = <[pid := mkProc (Running heeds) out err]> (os_procs (opsys w)) ∧
    checkbox w1 = checkbox w ∧
    emitted w1 = emitted w ++ [(_control_name (checkbox w) +:+ "-reset",
                                Reset (_control_name (checkbox w)))].
Proof.
  destruct w as [[cmd pr envu cwd so sw eo ew] cb [al cr cw cp ep em dn]
                 [fds pipes procs environ exec] emi pri].
  unfold registered_are_open, spawn_outcome. simpl. intros -> Hexec Hwf.
  unfold Runner.start, Runner._start, os.pipe, os.Popen, os.write, os.close,
    Reactor.register, Reactor.epoll_register.
  world_unfold. cbn.
  set (po := os.lowest_free pipes).
  set (fo := os.lowest_free fds).
  set (pipes1 := <[po := _]> pipes).
  set (fds1 := <[fo := PipeR po]> fds).
  set (wo := os.lowest_free fds1).
  set (fds2 := <[wo := PipeW po]> fds1).
  set (pe := os.lowest_free pipes1).
  set (fe := os.lowest_free fds2).
  set (fds3 := <[fe := PipeR pe]> fds2).
  set (we := os.lowest_free fds3).
  set (fds4 := <[we := PipeW pe]> fds3).
  pose proof (lowest_free_spec fds) as Hfo. fold fo in Hfo.
  pose proof (lowest_free_spec fds1) as Hwo. fold wo in Hwo.
  pose proof (lowest_free_spec fds2) as Hfe. fold fe in Hfe.
  pose proof (lowest_free_spec fds3) as Hwe. fold we in Hwe.
  pose proof (lowest_free_spec procs) as Hpid.
  subst fds3 fds2 fds1 pipes1.
  apply lookup_insert_None in Hwo as [Hwo ?].
  apply lookup_insert_None in Hfe as [Hfe ?].
  apply lookup_insert_None in Hfe as [Hfe ?].
  apply lookup_insert_None in Hwe as [Hwe ?].
  apply lookup_insert_None in Hwe as [Hwe ?].
  apply lookup_insert_None in Hwe as [Hwe ?].
  assert (ep !! fo = None) as Hepo.
  { apply eq_None_not_Some. intros Hs%Hwf. rewrite Hfo in Hs. by destruct Hs. }
  assert (ep !! fe = None) as Hepe.
  { apply eq_None_not_Some. intros Hs%Hwf. rewrite Hfe in Hs. by destruct Hs. }
  rewrite Hepo. cbn.
  rewrite lookup_insert_ne, Hepe by done. cbn.
  rewrite Hexec. cbn.
  subst fds4.
  rewrite lookup_insert_ne, lookup_insert_ne, lookup_insert_eq by done.
  rewrite lookup_insert_eq. cbn.
  rewrite lookup_insert_ne, lookup_insert_ne, lookup_insert_eq by done. cbn.
  rewrite lookup_delete_ne, lookup_insert_eq by done. cbn.
  by eexists _, (os.lowest_free procs), po, pe.
Qed.

(** [start] on a runner that holds a process: one printed line, and
    nothing else changes. *)
Lemma start_live w pid :
  _process (runner w) = Some pid →
  runner_start w
  = (Ret tt,
     print_line ("Already started "
                   +:+ quoted (repr_command (_command (runner w)))
                   +:+ " -- ignoring") w).
Proof.
  intros Hp. unfold runner_start, Runner.start. world_unfold. by rewrite Hp.
Qed.

(** C7.  [start] on a runner that holds a process spawns nothing and
    emits nothing: the only trace of the call is one printed line. *)
Theorem start_with_live_process_only_prints w pid :
  _process (runner w) = Some pid →
  ∃ w',
    runner_start w = (Ret tt, w') ∧
    runner w' = runner w ∧ checkbox w' = checkbox w ∧
    reactor w' = reactor w ∧ opsys w' = opsys w ∧
    emitted w' = emitted w ∧
    printed w' = printed w ++
      ["Already started " +:+ quoted (repr_command (_command (runner w)))
         +:+ " -- ignoring"].
Proof.
  intros Hp. eexists. split; [by eapply start_live|]. by simpl.
Qed.

Lemma start_with_live_process_only_prints_witness :
  let w := (control_update 2 "enable_iperf3" true
              (enable_iperf3 (Spawns true))).2 in
  ∃ w',
    runner_start w = (Ret tt, w') ∧
    runner w' = runner w ∧ checkbox w' = checkbox w ∧
    reactor w' = reactor w ∧ opsys w' = opsys w ∧
    emitted w' = emitted w ∧
    printed w' = printed w ++
      ["Already started " +:+ quoted (repr_command (_command (runner w)))
         +:+ " -- ignoring"].
Proof.
  intros w. apply (start_with_live_process_only_prints w 0).
  vm_compute. reflexivity.
Defined.

(** Two calls of [start] in a row, the first of which spawns: the
    second adds no child and no reset. *)
Lemma start_twice_spawns_once w heeds :
  _process (runner w) = None →
  spawn_outcome w = Spawns heeds →
  registered_are_open w →
  ∃ w1 w2 pid p,
    runner_start w = (Ret tt, w1) ∧ runner_start w1 = (Ret tt, w2) ∧
    os_procs (opsys w) !! pid = None ∧
    os_procs (opsys w2) = <[pid := p]> (os_procs (opsys w)) ∧
    emitted w2 = emitted w ++ [(_control_name (checkbox w) +:+ "-reset",
                                Reset (_control_name (checkbox w)))].
Proof.
  intros Hidle Hexec Hwf.
  destruct (start_spawn_succeeds w heeds Hidle Hexec Hwf)
    as (w1 & pid & out & err & Hstart & Hp1 & Hfresh & Hprocs & _ & Hem).
  eexists w1, _, pid, (mkProc (Running heeds) out err).
  split_and!; [done|by eapply start_live|done|done|done].
Qed.

(** C9.  [stop] on a runner that holds no process raises nothing and
    changes nothing: the only trace of the call is one printed line. *)
Theorem stop_without_process_only_prints depth w :
  _process (runner w) = None →
  ∃ w',
    runner_stop depth w = (Ret tt, w') ∧
    runner w' = runner w ∧ checkbox w' = checkbox w ∧
    reactor w' = reactor w ∧ opsys w' = opsys w ∧
    emitted w' = emitted w ∧
    printed w' = printed w ++
      ["Not currently running "
         +:+ quoted (repr_command (_command (runner w))) +:+ " -- ignoring"].
Proof.
  intros Hp. unfold runner_stop, Runner.stop. world_unfold. rewrite Hp.
  by eexists.
Qed.

Lemma stop_without_process_only_prints_witness :
  let w := enable_iperf3 (Spawns true) in
  ∃ w',
    runner_stop 0 w = (Ret tt, w') ∧
    runner w' = runner w ∧ checkbox w' = checkbox w ∧
    reactor w' = reactor w ∧ opsys w' = opsys w ∧
    emitted w' = emitted w ∧
    printed w' = printed w ++
      ["Not currently running "
         +:+ quoted (repr_command (_command (runner w))) +:+ " -- ignoring"].
Proof.
  intros w. apply (stop_without_process_only_prints 0 w). reflexivity.
Defined.

(** Whatever [update] is asked for, the reply it returns is the reply a
    [request] made next returns. *)
Lemma update_reply_is_request_reply depth name state w reply w' :
  control_update depth name state w = (Ret reply, w') →
  control_request name w' = (Ret reply, w').
Proof.
  unfold control_update, control_request, Checkbox.update, Checkbox.request.
  world_unfold.
  destruct (runner_update depth state w) as [[r|e| |] w1]; try done.
  simpl. by intros [= <- <-].
Qed.

(** C8.  For a checkbox whose runner has a process, or gets one from
    this call, [update(control, true)] returns [{control, true, true}],
    and the [request] made next returns the same triple. *)
Theorem update_then_request_agree depth name w :
  (_process (runner w) = None →
   (∃ heeds, spawn_outcome w = Spawns heeds) ∧ registered_are_open w) →
  ∃ w',
    control_update (S depth) name true w = (Ret (mkReply name true true), w') ∧
    control_request name w' = (Ret (mkReply name true true), w') ∧
    _process (runner w') ≠ None.
Proof.
  intros Hstart.
  assert (∃ w1 pid, Runner.start w = (Ret tt, w1) ∧
                    _process (runner w1) = Some pid) as (w1 & pid & Hrun & Hp1).
  { destruct (_process (runner w)) as [pid|] eqn:Hp.
    - eexists _, pid. split; [by eapply start_live|done].
    - destruct (Hstart eq_refl) as [[heeds Hexec] Hwf].
      destruct (start_spawn_succeeds w heeds Hp Hexec Hwf)
        as (w1 & pid & out & err & Hrun & Hp1 & _).
      by exists w1, pid. }
  assert (control_update (S depth) name true w
          = (Ret (mkReply name true true),
             set_checkbox (Checkbox.set_value true) w1)) as Hupd.
  { unfold control_update, Checkbox.update. simpl.
    unfold Runner.update. world_unfold. rewrite Hrun. simpl.
    by rewrite Hp1. }
  eexists. split_and!.
  - exact Hupd.
  - by eapply update_reply_is_request_reply.
  - simpl. by rewrite Hp1.
Qed.

Lemma update_then_request_agree_witness :
  let w := enable_iperf3 (Spawns true) in
  ∃ w',
    control_update 2 "enable_iperf3" true w
    = (Ret (mkReply "enable_iperf3" true true), w') ∧
    control_request "enable_iperf3" w'
    = (Ret (mkReply "enable_iperf3" true true), w') ∧
    _process (runner w') ≠ None.
Proof.
  intros w. apply (update_then_request_agree 1 "enable_iperf3" w).
  intros _. split.
  - by exists true.
  - intros fd [ev Hfd]. vm_compute in Hfd.
    destruct fd as [|[[[]|[]|]|[[]|[]|]|]|]; try discriminate; vm_compute; eauto.
Defined.

(** ** Depth of calls

    Two nested calls between the runner and its checkbox are all there
    ever are: [update] reaches [_stop], [_stop] reaches [stopped], and the
    [update] that [stopped] makes finds the runner without process.  With
    that much depth no call of the model runs out of it. *)

Ltac walk :=
  repeat (first
    [ progress cbn
    | match goal with
      | |- context [match ?x with _ => _ end] =>
        lazymatch x with
        | context [match _ with _ => _ end] => fail
        | _ => destruct x eqn:?
        end
      end ]); try done.

Lemma start_has_depth w : (Runner.start w).1 ≠ NoFuel.
Proof.
  destruct w as [[cmd pr envu cwd so sw eo ew] cb [al cr cw cp ep em dn]
                 [fds pipes procs environ exec] emi pri].
  unfold Runner.start, Runner._start, os.pipe, os.Popen, os.write, os.close,
    Reactor.register, Reactor.epoll_register.
  world_unfold. walk.
Qed.

Lemma stop_has_depth d w :
  (Runner.stop (Checkbox.stopped (runner_update (S d))) w).1 ≠ NoFuel.
Proof.
  destruct w as [[cmd pr envu cwd so sw eo ew] cb [al cr cw cp ep em dn]
                 [fds pipes procs environ exec] emi pri].
  unfold Runner.stop, Runner._stop, Checkbox.stopped, Checkbox.update,
    os.terminate, os.communicate, os.close, os.reap.
  world_unfold. simpl runner_update.
  unfold Runner.update, Runner.stop. world_unfold. walk.
Qed.

Lemma runner_update_has_depth d state w :
  (runner_update (S (S d)) state w).1 ≠ NoFuel.
Proof.
  simpl. unfold Runner.update. world_unfold. destruct state.
  - pose proof (start_has_depth w) as Hs.
    by destruct (Runner.start w) as [[[]|e| |] w1].
  - pose proof (stop_has_depth d w) as Hs.
    by destruct (Runner.stop _ w) as [[[]|e| |] w1].
Qed.

Lemma control_update_has_depth d name state w :
  (control_update (S (S d)) name state w).1 ≠ NoFuel.
Proof.
  unfold control_update, Checkbox.update. world_unfold.
  pose proof (runner_update_has_depth d state w) as Hu.
  by destruct (runner_update (S (S d)) state w) as [[r|e| |] w1].
Qed.

Lemma call_method_has_depth d m event w :
  (call_method (S d) m event w).1 ≠ NoFuel.
Proof.
  pose proof (stop_has_depth d) as Hstop.
  unfold call_method, control_stopped, Runner.stdout, Runner.stderr.
  generalize dependent (Runner.stop (Checkbox.stopped (runner_update (S d)))).
  intros stop Hstop.
  destruct w as [[cmd pr envu cwd so sw eo ew] cb [al cr cw cp ep em dn]
                 [fds pipes procs environ exec] emi pri].
  destruct m.
  all: unfold os.close, os.read, Reactor.unregister, Reactor.epoll_unregister.
  all: world_unfold; walk.
Qed.

Lemma dispatch_ready_has_depth d events w :
  (dispatch_ready (S d) events w).1 ≠ NoFuel.
Proof.
  unfold dispatch_ready. revert w.
  induction events as [|[fileno event] events IH]; intros w; [done|].
  simpl. py_unfold. unfold Reactor.try_except, Reactor.call_ready. py_unfold.
  destruct (_epoll_map (reactor w) !! fileno) as [[|m]|]; simpl.
  - unfold Reactor.on_reactor, Reactor._control_ready. py_unfold.
    destruct (_control_pipe (reactor w)); simpl; [done|apply IH].
  - pose proof (call_method_has_depth d m event w) as Hm.
    destruct (call_method (S d) m event w) as [[[]|e| |] w1]; simpl;
      [apply IH| |done|done].
    destruct (exn_is_Exception e); [apply IH|done].
  - apply IH.
Qed.

(** ** More of the reactor *)

Section call_facts.
Context {C H : Type} `{EqDecision C}.
Implicit Types (r : Reactor C H) (c : reactor_call (C:=C) (H:=H)).

Lemma sort_alarms_frame r :
  let r' := (Reactor.sort_alarms r).2 in
  _epoll r' = _epoll r ∧ _epoll_map r' = _epoll_map r ∧ _done r' = _done r ∧
  _control_r r' = _control_r r ∧ _control_w r' = _control_w r ∧
  _control_pipe r' = _control_pipe r.
Proof.
  unfold Reactor.sort_alarms.
  by destruct (list_sort _ _).
Qed.

Lemma after_call_frame r c :
  let r' := after_call r c in
  _control_r r' = _control_r r ∧ _control_w r' = _control_w r ∧
  (_done r = true → _done r' = true) ∧
  (handlers_cover_interest r → handlers_cover_interest r').
Proof.
  destruct r as [al cr cw cp ep em dn].
  destruct c; unfold after_call, handlers_cover_interest; simpl.
  - unfold Reactor.register, Reactor.epoll_register. py_unfold. simpl.
    destruct (ep !! fd) eqn:Hfd; simpl; split_and!; try done.
    + intros Hc fd' Hs. destruct (decide (fd' = fd)) as [->|Hne].
      * by rewrite lookup_insert_eq.
      * rewrite lookup_insert_ne by done. by apply Hc.
    + intros Hc fd' Hs. destruct (decide (fd' = fd)) as [->|Hne].
      * by rewrite lookup_insert_eq.
      * rewrite lookup_insert_ne in Hs by done.
        rewrite lookup_insert_ne by done. by apply Hc.
  - unfold Reactor.unregister, Reactor.epoll_unregister. py_unfold. simpl.
    destruct (ep !! fd) eqn:Hfd; simpl; [|done].
    destruct (em !! fd) eqn:Hm; simpl; split_and!; try done.
    + intros Hc fd' Hs. destruct (decide (fd' = fd)) as [->|Hne].
      * rewrite lookup_delete_eq in Hs. by destruct Hs.
      * rewrite lookup_delete_ne in Hs by done.
        rewrite lookup_delete_ne by done. by apply Hc.
    + intros Hc fd' Hs. destruct (decide (fd' = fd)) as [->|Hne].
      * rewrite lookup_delete_eq in Hs. by destruct Hs.
      * rewrite lookup_delete_ne in Hs by done. by apply Hc.
  - unfold Reactor.alarm, Reactor._signal. py_unfold. simpl.
    match goal with |- context [Reactor.sort_alarms ?x] =>
      pose proof (sort_alarms_frame x) as Hf;
      destruct (Reactor.sort_alarms x) as [[[]|e| |] r'] end;
      simpl in *; destruct Hf as (-> & -> & -> & -> & -> & _); done.
  - unfold Reactor.periodic_alarm, Reactor._signal. py_unfold. simpl.
    match goal with |- context [Reactor.sort_alarms ?x] =>
      pose proof (sort_alarms_frame x) as Hf;
      destruct (Reactor.sort_alarms x) as [[[]|e| |] r'] end;
      simpl in *; destruct Hf as (-> & -> & -> & -> & -> & _); done.
  - done.
  - unfold Reactor._control_ready. py_unfold. simpl. by destruct cp.
  - unfold Reactor.expire. simpl.
    destruct al as [|a tl]; [done|].
    case_decide; [done|].
    destruct (period_s a); [|done].
    py_unfold. simpl.
    match goal with |- context [Reactor.sort_alarms ?x] =>
      pose proof (sort_alarms_frame x) as Hf;
      destruct (Reactor.sort_alarms x) as [[[]|e| |] r'] end;
      simpl in *; destruct Hf as (-> & -> & -> & -> & -> & _); done.
Qed.

Lemma init_spec (control_r control_w : Z) :
  Reactor.init (C:=C) (H:=H) control_r control_w
  = (Ret tt,
     mkReactor [] control_r control_w EmptyString
       {[control_r := Z.lor Reactor.EPOLLIN Reactor.EPOLLHUP]}
       {[control_r := ControlReady]} false).
Proof. done. Qed.





End call_facts.


Section queue_facts.
Context {C H : Type} `{EqDecision C}.
Implicit Types (r : Reactor C H) (a b : ReactorAlarm C) (cb : C).
Implicit Types (h : Reactor.history (C:=C) (H:=H)).


(* a one-shot alarm that is due leaves the list, and nothing is sorted *)
Lemma expire_one_shot now r a tl :
  _alarms r = a :: tl → period_s a = None → ¬ (deadline a > now)%Z →
  Reactor.expire now r = (Ret (Fire a), Reactor.set_alarms (λ _, tl) r).
Proof.
  intros Hl Hp Hdue. unfold Reactor.expire. rewrite Hl.
  rewrite decide_False by done. by rewrite Hp.
Qed.

Lemma filter_perm_nil (P : ReactorAlarm C → Prop) `{∀ a, Decision (P a)}
    (l l' : list (ReactorAlarm C)) :
  l' ≡ₚ l → filter P l = [] → filter P l' = [].
Proof.
  intros Hperm Hf. apply Permutation_nil_r. rewrite <-Hf.
  by apply filter_Permutation.
Qed.

(* what one holding does to the alarms of a callback it does not bring *)
Lemma hold_other_callbacks cb h x :
  Reactor.brings x ≠ Some cb →
  (filter (λ a, callback a = cb) (Reactor.fired (Reactor.hold h x))
   = filter (λ a, callback a = cb) (Reactor.fired h) ∧
   filter (λ a, callback a = cb) (_alarms (Reactor.reactor_now (Reactor.hold h x)))
   ≡ₚ filter (λ a, callback a = cb) (_alarms (Reactor.reactor_now h))) ∨
  (∃ now a tl,
     x = Reactor.Turn now ∧ Reactor.crashed h = false ∧
     _alarms (Reactor.reactor_now h) = a :: tl ∧
     callback a = cb ∧ ¬ (deadline a > now)%Z).
Proof.
  intros Hx. destruct x as [d cb'|now p cb'|now]; simpl in *.
  - left. split; [done|].
    rewrite (filter_Permutation _ _ _ (alarm_perm d cb' (Reactor.reactor_now h))).
    rewrite filter_cons_False; [done|]. simpl. congruence.
  - left. split; [done|].
    rewrite (filter_Permutation _ _ _
               (periodic_alarm_perm now p cb' (Reactor.reactor_now h))).
    rewrite filter_cons_False; [done|]. simpl. congruence.
  - destruct (Reactor.crashed h) eqn:Hcr; [by left|].
    pose proof (expire_cases now (Reactor.reactor_now h)) as Hcases.
    destruct (Reactor.expire now (Reactor.reactor_now h)) as [x r'].
    destruct (_alarms (Reactor.reactor_now h)) as [|a tl] eqn:Hl.
    { destruct Hcases as [-> ->]. left. simpl. by rewrite Hl. }
    case_decide as Hdue.
    { destruct Hcases as [-> ->]. left. simpl. by rewrite Hl. }
    destruct (decide (callback a = cb)) as [Ha|Ha].
    { right. by exists now, a, tl. }
    left. destruct Hcases as [Hres Hperm].
    assert (filter (λ a0, callback a0 = cb) (_alarms r')
            ≡ₚ filter (λ a0, callback a0 = cb) (a :: tl)) as Hf.
    { rewrite (filter_Permutation _ _ _ Hperm).
      rewrite (filter_cons_False _ a) by done.
      destruct (period_s a); [|done].
      by rewrite filter_cons_False. }
    destruct Hres as [-> | [e ->]]; simpl.
    + split; [|done]. rewrite filter_app.
      rewrite (filter_cons_False _ a) by done. by rewrite app_nil_r.
    + by split.
Qed.

Lemma hold_one_shot (T : Z) cb h x :
  Reactor.brings x ≠ Some cb →
  let a := mkReactorAlarm T None cb in
  (filter (λ a, callback a = cb) (Reactor.fired h) = [] ∧
   filter (λ a, callback a = cb) (_alarms (Reactor.reactor_now h)) = [a] ∨
   filter (λ a, callback a = cb) (Reactor.fired h) = [a] ∧
   filter (λ a, callback a = cb) (_alarms (Reactor.reactor_now h)) = []) →
  filter (λ a, callback a = cb) (Reactor.fired (Reactor.hold h x)) = [] ∧
  filter (λ a, callback a = cb)
         (_alarms (Reactor.reactor_now (Reactor.hold h x))) = [a] ∨
  filter (λ a, callback a = cb) (Reactor.fired (Reactor.hold h x)) = [a] ∧
  filter (λ a, callback a = cb)
         (_alarms (Reactor.reactor_now (Reactor.hold h x))) = [].
Proof.
  intros Hx a Hinv.
  destruct (hold_other_callbacks cb h x Hx)
    as [[Hf Hl] | (now & a0 & tl & -> & Hcr & Hal & Hcb & Hdue)].
  - rewrite Hf. destruct Hinv as [[? Hone] | [? Hnone]]; [left|right].
    + split; [done|]. rewrite Hone in Hl. by apply Permutation_singleton_r.
    + split; [done|]. rewrite Hnone in Hl. by apply Permutation_nil_r.
  - destruct Hinv as [[Hf Hone] | [_ Hnone]].
    + rewrite Hal, filter_cons_True in Hone by done.
      injection Hone as -> Htl.
      simpl. rewrite Hcr.
      rewrite (expire_one_shot now _ a tl) by done.
      right. simpl. split; [|done].
      rewrite filter_app, Hf. by rewrite filter_cons_True.
    + rewrite Hal, filter_cons_True in Hnone by done. done.
Qed.


(* a turn that fires took the head of the list, and it was due *)
Lemma hold_fires_when_due h x :
  Reactor.fired (Reactor.hold h x) = Reactor.fired h ∨
  ∃ now a, x = Reactor.Turn now ∧ (deadline a ≤ now)%Z ∧
           head (_alarms (Reactor.reactor_now h)) = Some a ∧
           Reactor.fired (Reactor.hold h x) = Reactor.fired h ++ [a].
Proof.
  destruct x as [d cb'|now p cb'|now]; simpl; [by left..|].
  destruct (Reactor.crashed h); [by left|].
  pose proof (expire_cases now (Reactor.reactor_now h)) as Hcases.
  destruct (Reactor.expire now (Reactor.reactor_now h)) as [x r'].
  destruct (_alarms (Reactor.reactor_now h)) as [|a tl] eqn:Hl.
  { destruct Hcases as [-> ->]. by left. }
  case_decide as Hdue.
  { destruct Hcases as [-> ->]. by left. }
  destruct Hcases as [[-> | [e ->]] _]; [|by left].
  right. exists now, a. split_and!; try done; lia.
Qed.


(* one turn of the loop on a list of alarms that all have the period P
   and whose deadlines agree modulo P for one callback only *)
Lemma turn_same_period (P : Z) now r :
  (∀ a, a ∈ _alarms r → period_s a = Some P) →
  (∀ a b, a ∈ _alarms r → b ∈ _alarms r →
          ((deadline a - deadline b) `mod` P = 0)%Z → callback a = callback b) →
  Reactor.earliest_first (_alarms r) →
  ∃ x r',
    Reactor.expire now r = (Ret x, r') ∧
    (∀ a, a ∈ _alarms r' → period_s a = Some P) ∧
    (∀ a b, a ∈ _alarms r' → b ∈ _alarms r' →
            ((deadline a - deadline b) `mod` P = 0)%Z →
            callback a = callback b) ∧
    Reactor.earliest_first (_alarms r') ∧
    length (_alarms r') = length (_alarms r).
Proof.
  intros Hper Hmod Hsorted. unfold Reactor.expire.
  destruct (_alarms r) as [|a tl] eqn:Hl.
  { exists (Idle None), r. rewrite Hl. by split_and!. }
  case_decide as Hdue.
  { eexists _, r. rewrite Hl. by split_and!. }
  rewrite (Hper a) by by left.
  set (a' := mkReactorAlarm (deadline a + P) (Some P) (callback a)).
  set (r1 := Reactor.set_alarms (λ _, a' :: tl) r).
  assert (∀ b, b ∈ a' :: tl → period_s b = Some P) as Hper1.
  { intros b [->|Hb]%elem_of_cons; [done|]. apply Hper. by right. }
  assert (∀ b c, b ∈ a' :: tl → c ∈ a' :: tl →
                 ((deadline b - deadline c) `mod` P = 0)%Z →
                 callback b = callback c) as Hmod1.
  { assert (∀ b, b ∈ a' :: tl →
              ∃ b0, b0 ∈ a :: tl ∧ callback b0 = callback b ∧
                    ∃ k, deadline b = (deadline b0 + k * P)%Z) as Hback.
    { intros b [->|Hb]%elem_of_cons.
      - exists a. split_and!; [by left|done|]. exists 1%Z. simpl. lia.
      - exists b. split_and!; [by right|done|]. exists 0%Z. lia. }
    intros b c Hb Hc Hbc.
    destruct (Hback b Hb) as (b0 & Hb0 & <- & kb & Hkb).
    destruct (Hback c Hc) as (c0 & Hc0 & <- & kc & Hkc).
    apply Hmod; [done|done|].
    rewrite Hkb, Hkc in Hbc.
    replace (deadline b0 + kb * P - (deadline c0 + kc * P))%Z
      with (deadline b0 - deadline c0 + (kb - kc) * P)%Z in Hbc by lia.
    by rewrite Z_mod_plus_full in Hbc. }
  destruct (sort_alarms_returns r1) as [l Hsort].
  { simpl. intros b c Hb Hc Hbc.
    pose proof (Hper1 b Hb) as Hpb. pose proof (Hper1 c Hc) as Hpc.
    assert (callback b = callback c) as Hcb.
    { apply Hmod1; [done|done|]. rewrite Hbc, Z.sub_diag. apply Zmod_0_l. }
    destruct b, c. simpl in *. congruence. }
  pose proof (sort_alarms_perm r1) as Hperm.
  pose proof (sort_alarms_sorted r1 _ Hsort) as Hsorted'.
  rewrite Hsort in Hperm. simpl in Hperm, Hsorted'.
  exists (Fire a), (Reactor.set_alarms (λ _, l) r1).
  split_and!.
  - py_unfold. fold r1. by rewrite Hsort.
  - simpl. intros b Hb. apply Hper1. by rewrite <-Hperm.
  - simpl. intros b c Hb Hc. apply Hmod1; by rewrite <-Hperm.
  - done.
  - simpl. by rewrite Hperm.
Qed.



End queue_facts.





Section loop_facts.
Context {C H W : Type} `{EqDecision C}.
Variable reactor_of : W → Reactor C H.
Variable with_reactor : Reactor C H → W → W.
Variable print : string → W → W.
Variable call_callback : C → py W unit.
Variable call_handler : H → Z → py W unit.

#[local] Abbreviation on_reactor :=
  (Reactor.on_reactor reactor_of with_reactor).
#[local] Abbreviation _run :=
  (Reactor._run reactor_of with_reactor print call_callback call_handler).

(* the reactor is a part of the program's state *)
Hypothesis reactor_of_with_reactor : ∀ r w, reactor_of (with_reactor r w) = r.


End loop_facts.

Section alarm_loop_facts.
Context {C H W : Type} `{EqDecision C}.
Variable reactor_of : W → Reactor C H.
Variable with_reactor : Reactor C H → W → W.
Variable print : string → W → W.
Variable call_callback : C → py W unit.

#[local] Abbreviation drain :=
  (Reactor.drain reactor_of with_reactor print call_callback).

(* the reactor is a part of the program's state *)
Hypothesis reactor_of_with_reactor : ∀ r w, reactor_of (with_reactor r w) = r.

End alarm_loop_facts.

(** ** More of the runner *)

Lemma str_take_drop (n : N) (s : string) : str_take n s +:+ str_drop n s = s.
Proof.
  revert n. induction s as [|c s IH]; intros n; [done|].
  cbn [str_take str_drop]. destruct (n =? 0)%N; [done|].
  change (String c (str_take (N.pred n) s +:+ str_drop (N.pred n) s)
          = String c s).
  by rewrite IH.
Qed.

Lemma str_take_length (n : N) (s : string) :
  String.length (str_take n s) = String.length s `min` N.to_nat n.
Proof.
  revert n. induction s as [|c s IH]; intros n; [done|].
  cbn [str_take]. destruct (N.eqb_spec n 0) as [->|Hn]; [done|].
  cbn [String.length]. rewrite IH. lia.
Qed.

Lemma str_drop_length (n : N) (s : string) :
  String.length (str_drop n s) = String.length s - N.to_nat n.
Proof.
  revert n. induction s as [|c s IH]; intros n; [done|].
  cbn [str_drop]. destruct (N.eqb_spec n 0) as [->|Hn]; [done|].
  rewrite IH. cbn [String.length]. lia.
Qed.

(* one call of a bound method on a pipe that holds text *)
Lemma chunk_forwards depth m event fd text w :
  holds_text m fd text w → text ≠ EmptyString →
  ∃ o',
    call_method depth m event w
    = (Ret tt,
       mkWorld (runner w) (checkbox w) (reactor w) o'
         (emitted w ++
            [(_control_name (checkbox w) +:+ chunk_suffix m,
              Chunk (_control_name (checkbox w)) (str_take CHUNK text))])
         (printed w)) ∧
    holds_text m fd (str_drop CHUNK text)
      (mkWorld (runner w) (checkbox w) (reactor w) o'
         (emitted w ++
            [(_control_name (checkbox w) +:+ chunk_suffix m,
              Chunk (_control_name (checkbox w)) (str_take CHUNK text))])
         (printed w)).
Proof.
  destruct w as [[cmd pr envu cwd so sw eo ew] cb [al cr cw cp ep em dn]
                 [fds pipes procs environ exec] emi pri].
  unfold holds_text. simpl.
  intros (Hfd & (p & n & Hfds & Hp) & Hem) Htext.
  pose proof (str_take_nonempty text Htext) as Hchunk.
  exists (os.set_pipes <[p := mkPipe (str_drop CHUNK text) n]>
            (mkOS fds pipes procs environ exec)).
  destruct m; simpl in Hfd; subst.
  all: unfold call_method, Runner.stdout, Runner.stderr, os.read.
  all: world_unfold; cbn.
  all: rewrite Hfds; cbn; rewrite Hp; cbn.
  all: destruct text as [|c text]; [done|]; cbn.
  all: change (CHUNK =? 0)%N with false; cbn.
  all: split; [done|].
  all: split_and!; try done.
  all: exists p, n; split; [done|]; by rewrite lookup_insert_eq.
Qed.

Lemma str_app_assoc (s1 s2 s3 : string) :
  (s1 +:+ s2) +:+ s3 = s1 +:+ s2 +:+ s3.
Proof.
  induction s1 as [|c s1 IH]; [done|].
  change (String c ((s1 +:+ s2) +:+ s3) = String c (s1 +:+ s2 +:+ s3)).
  by rewrite IH.
Qed.

Lemma str_app_nil_r (s : string) : s +:+ EmptyString = s.
Proof.
  induction s as [|c s IH]; [done|].
  change (String c (s +:+ EmptyString) = String c s). by rewrite IH.
Qed.

Lemma forwarded_snoc event emitted control value :
  forwarded event (emitted ++ [(event, Chunk control value)])
  = forwarded event emitted +:+ value.
Proof.
  induction emitted as [|[ev p] emitted IH]; simpl.
  - rewrite decide_True by done. apply str_app_nil_r.
  - destruct p; try done.
    case_decide; [|done]. by rewrite IH, str_app_assoc.
Qed.





Lemma settled_frame w rn cb o em pr :
  settled w →
  os_fds o = os_fds (opsys w) →
  (_process rn ≠ None →
   _stdout_w rn = Some (-1)%Z ∧ _stderr_w rn = Some (-1)%Z) →
  settled (mkWorld rn cb (reactor w) o em pr).
Proof.
  intros [Hopen _] Hfds Hrn. split; [|done].
  intros fd. simpl. rewrite Hfds. apply Hopen.
Qed.

Lemma start_keeps_settled w : settled w → settled (Runner.start w).2.
Proof.
  destruct w as [[cmd pr envu cwd so sw eo ew] cb [al cr cw cp ep em dn]
                 [fds pipes procs environ exec] emi pri].
  unfold settled, registered_are_open. simpl. intros [Hwf Hrun].
  unfold Runner.start. world_unfold. cbn.
  destruct pr as [pid|]; [done|]. cbn.
  unfold Runner._start, os.pipe, os.Popen, os.write, os.close,
    Reactor.register, Reactor.epoll_register.
  world_unfold. cbn.
  set (po := os.lowest_free pipes).
  set (fo := os.lowest_free fds).
  set (pipes1 := <[po := _]> pipes).
  set (fds1 := <[fo := PipeR po]> fds).
  set (wo := os.lowest_free fds1).
  set (fds2 := <[wo := PipeW po]> fds1).
  set (pe := os.lowest_free pipes1).
  set (fe := os.lowest_free fds2).
  set (fds3 := <[fe := PipeR pe]> fds2).
  set (we := os.lowest_free fds3).
  set (fds4 := <[we := PipeW pe]> fds3).
  pose proof (lowest_free_spec fds) as Hfo. fold fo in Hfo.
  pose proof (lowest_free_spec fds1) as Hwo. fold wo in Hwo.
  pose proof (lowest_free_spec fds2) as Hfe. fold fe in Hfe.
  pose proof (lowest_free_spec fds3) as Hwe. fold we in Hwe.
  subst fds3 fds2 fds1 pipes1.
  apply lookup_insert_None in Hwo as [Hwo ?].
  apply lookup_insert_None in Hfe as [Hfe ?].
  apply lookup_insert_None in Hfe as [Hfe ?].
  apply lookup_insert_None in Hwe as [Hwe ?].
  apply lookup_insert_None in Hwe as [Hwe ?].
  apply lookup_insert_None in Hwe as [Hwe ?].
  assert (ep !! fo = None) as Hepo.
  { apply eq_None_not_Some. intros Hs%Hwf. rewrite Hfo in Hs. by destruct Hs. }
  assert (ep !! fe = None) as Hepe.
  { apply eq_None_not_Some. intros Hs%Hwf. rewrite Hfe in Hs. by destruct Hs. }
  rewrite Hepo. cbn.
  rewrite lookup_insert_ne, Hepe by done. cbn.
  assert (∀ fds' : gmap Z fd_kind,
            (∀ fd, fd ≠ wo → fd ≠ we → fds' !! fd = fds4 !! fd) ∨ fds' = fds4 →
            ∀ fd, is_Some (<[fe:=Runner.event_mask]> (<[fo:=Runner.event_mask]> ep) !! fd) →
                  is_Some (fds' !! fd)) as Hopen.
  { intros fds' Hfds' fd Hs.
    assert (fd ≠ wo ∧ fd ≠ we ∧ is_Some (fds4 !! fd)) as (? & ? & Hs4).
    { subst fds4.
      destruct (decide (fd = fe)) as [->|?].
      { split_and!; try done.
        by rewrite lookup_insert_ne, lookup_insert_eq by done. }
      destruct (decide (fd = fo)) as [->|?].
      { split_and!; try done.
        by rewrite !lookup_insert_ne, lookup_insert_eq by done. }
      rewrite !lookup_insert_ne in Hs by done. apply Hwf in Hs.
      assert (fd ≠ wo) by (intros ->; rewrite Hwo in Hs; by destruct Hs).
      assert (fd ≠ we) by (intros ->; rewrite Hwe in Hs; by destruct Hs).
      split_and!; try done. by rewrite !lookup_insert_ne by done. }
    destruct Hfds' as [Hfds' | ->]; [|done]. by rewrite Hfds'. }
  destruct (exec cmd (envu ∪ environ) cwd) as [heeds|e]; cbn.
  - subst fds4.
    rewrite lookup_insert_ne, lookup_insert_ne, lookup_insert_eq by done.
    rewrite lookup_insert_eq. cbn.
    rewrite lookup_insert_ne, lookup_insert_ne, lookup_insert_eq by done. cbn.
    rewrite lookup_delete_ne, lookup_insert_eq by done. cbn.
    split; [|done]. apply Hopen. left. intros fd ? ?.
    by rewrite !lookup_delete_ne.
  - destruct (exn_is_Exception e); cbn.
    + subst fds4. rewrite lookup_insert_eq. cbn.
      rewrite lookup_insert_ne, lookup_insert_ne, lookup_insert_eq by done. cbn.
      rewrite lookup_delete_ne, lookup_insert_eq by done. cbn.
      split; [|done]. apply Hopen. left. intros fd ? ?.
      by rewrite !lookup_delete_ne.
    + split; [|done]. apply Hopen. by right.
Qed.

Section keeps_settled.
Variable stopped : py World unit.
Hypothesis stopped_keeps_settled : ∀ w, settled w → settled (stopped w).2.

Lemma stop_keeps_settled w : settled w → settled (Runner.stop stopped w).2.
Proof.
  destruct w as [[cmd pr envu cwd so sw eo ew] cb [al cr cw cp ep em dn]
                 [fds pipes procs environ exec] emi pri].
  intros Hs. pose proof Hs as [Hwf Hrun]. simpl in Hrun.
  unfold Runner.stop. world_unfold. cbn.
  destruct pr as [pid|]; cbn; [|by apply settled_frame].
  destruct Hrun as [-> ->]; [done|].
  unfold Runner._stop, os.terminate, os.communicate.
  world_unfold. cbn.
  destruct (procs !! pid) as [[[[]|] out err]|] eqn:Hpid; cbn.
  - unfold os.reap. cbn. rewrite Hpid. cbn. rewrite lookup_insert_eq. cbn.
    case_decide; [done|]. cbn. case_decide; [done|]. cbn.
    apply stopped_keeps_settled.
    unfold set_opsys, print_line, set_runner. cbn.
    by apply (settled_frame _ _ _ _ _ _ Hs).
  - rewrite Hpid. cbn. by apply (settled_frame _ _ _ _ _ _ Hs).
  - rewrite Hpid. cbn.
    case_decide; [done|]. cbn. case_decide; [done|]. cbn.
    apply stopped_keeps_settled.
    unfold set_opsys, print_line, set_runner. cbn.
    by apply (settled_frame _ _ _ _ _ _ Hs).
  - rewrite Hpid. cbn.
    case_decide; [done|]. cbn. case_decide; [done|]. cbn.
    apply stopped_keeps_settled.
    unfold set_opsys, print_line, set_runner. cbn.
    by apply (settled_frame _ _ _ _ _ _ Hs).
Qed.

Lemma handler_keeps_settled m event w :
  settled w →
  settled (match m with
           | Runner_stdout => Runner.stdout stopped event w
           | Runner_stderr => Runner.stderr stopped event w
           end).2.
Proof.
  destruct w as [[cmd pr envu cwd so sw eo ew] cb [al cr cw cp ep em dn]
                 [fds pipes procs environ exec] emi pri].
  intros Hs. pose proof Hs as [Hwf Hrun].
  unfold registered_are_open in Hwf. simpl in Hwf, Hrun.
  assert (∀ fd rn' cb' em' pr' (o' : OS) ep' (em2 : gmap Z (handler method)),
            os_fds o' = os_fds (mkOS fds pipes procs environ exec)
            ∨ os_fds o' = delete fd fds ∧ ep' !! fd = None →
            ep' = ep ∨ ep' = delete fd ep →
            (_process rn' ≠ None →
             _stdout_w rn' = Some (-1)%Z ∧ _stderr_w rn' = Some (-1)%Z) →
            settled (mkWorld rn' cb' (mkReactor al cr cw cp ep' em2 dn)
                             o' em' pr')) as Hframe.
  { intros fd rn' cb' em' pr' o' ep' em2 Hfds Hep Hrn. split; [|done].
    intros fd' Hfd'. simpl in *.
    assert (is_Some (ep !! fd')) as Hin.
    { destruct Hep as [-> | ->]; [done|].
      apply lookup_delete_is_Some in Hfd'. by destruct Hfd'. }
    destruct Hfds as [-> | [-> Hnone]]; [by apply Hwf|].
    rewrite lookup_delete_ne; [by apply Hwf|].
    intros ->. rewrite Hnone in Hfd'. by destruct Hfd'. }
  destruct m.
  all: unfold Runner.stdout, Runner.stderr, os.read, os.close,
         Reactor.unregister, Reactor.epoll_unregister.
  all: world_unfold; walk.
  all: try apply stop_keeps_settled.
  all: unfold set_opsys, set_reactor, print_line, os.set_fds, os.set_pipes,
         Reactor.set_epoll_map, Reactor.set_epoll; cbn.
  all: match goal with
       | |- context [mkReactor _ _ _ _ (delete ?z _) _ _] => apply (Hframe z)
       end.
  all: try (left; reflexivity).
  all: try (right; reflexivity).
  all: try (right; split; [reflexivity|apply lookup_delete_eq]).
  all: try done.
Qed.
End keeps_settled.

Lemma runner_update_keeps_settled depth state w :
  settled w → settled (runner_update depth state w).2.
Proof.
  revert state w. induction depth as [|depth IH]; intros state w Hs; [done|].
  simpl. unfold Runner.update. py_unfold.
  assert (∀ w, settled w →
            settled (Checkbox.stopped (runner_update depth) w).2) as Hstopped.
  { clear w Hs. intros w Hs. unfold Checkbox.stopped, Checkbox.update.
    world_unfold. specialize (IH false w Hs).
    by destruct (runner_update depth false w) as [[r|e| |] w1]. }
  destruct state.
  - pose proof (start_keeps_settled w Hs) as Hk.
    by destruct (Runner.start w) as [[[]|e| |] w1].
  - pose proof (stop_keeps_settled _ Hstopped w Hs) as Hk.
    by destruct (Runner.stop _ w) as [[[]|e| |] w1].
Qed.

Lemma control_stopped_keeps_settled depth w :
  settled w → settled (control_stopped depth w).2.
Proof.
  intros Hs. unfold control_stopped, Checkbox.stopped, Checkbox.update.
  world_unfold.
  pose proof (runner_update_keeps_settled depth false w Hs) as Hk.
  by destruct (runner_update depth false w) as [[r|e| |] w1].
Qed.

Lemma dispatch_ready_keeps_settled depth events w :
  settled w → settled (dispatch_ready depth events w).2.
Proof.
  unfold dispatch_ready. revert w.
  induction events as [|[fileno event] events IH]; intros w Hs; [done|].
  simpl. py_unfold. unfold Reactor.try_except, Reactor.call_ready. py_unfold.
  destruct (_epoll_map (reactor w) !! fileno) as [[|m]|]; simpl.
  - unfold Reactor.on_reactor, Reactor._control_ready. py_unfold.
    destruct (_control_pipe (reactor w)) eqn:Hcp; simpl; [done|].
    apply IH. destruct Hs as [Hopen Hrun]. by split.
  - pose proof (handler_keeps_settled (control_stopped depth)
                  (control_stopped_keeps_settled depth) m event w Hs) as Hm.
    unfold call_method.
    destruct m.
    + destruct (Runner.stdout _ event w) as [[[]|e| |] w1]; simpl in *;
        [by apply IH| |done|done].
      destruct (exn_is_Exception e); [|done].
      apply IH. destruct Hm as [Hopen Hrun]. by split.
    + destruct (Runner.stderr _ event w) as [[[]|e| |] w1]; simpl in *;
        [by apply IH| |done|done].
      destruct (exn_is_Exception e); [|done].
      apply IH. destruct Hm as [Hopen Hrun]. by split.
  - apply IH. destruct Hs as [Hopen Hrun]. by split.
Qed.













(** ** html_render *)

Lemma item_nested_ind (P : item → Prop) :
  (∀ s, P (Str s)) →
  (∀ l, Forall P l → P (Lst l)) →
  (∀ v, Forall P v → P (Obj v)) →
  ∀ element, P element.
Proof.
  intros HStr HLst HObj. fix IH 1. intros [s|l|v].
  - apply HStr.
  - apply HLst. induction l as [|x l IHl]; constructor; [apply IH|apply IHl].
  - apply HObj. induction v as [|x v IHv]; constructor; [apply IH|apply IHv].
Qed.

Lemma concat_empty_app (l1 l2 : list string) :
  String.concat EmptyString (l1 ++ l2)
  = String.concat EmptyString l1 +:+ String.concat EmptyString l2.
Proof.
  induction l1 as [|x l1 IH]; [done|].
  assert (∀ l, String.concat EmptyString (x :: l)
               = x +:+ String.concat EmptyString l) as Hcons.
  { intros [|y l]; simpl; [|done].
    clear. induction x as [|c x IH]; [done|].
    change (String c x = String c (x +:+ EmptyString)). by rewrite <-IH. }
  change ((x :: l1) ++ l2) with (x :: (l1 ++ l2)).
  rewrite !Hcons, IH.
  clear. induction x as [|c x IH]; [done|].
  change (String c (x +:+ (String.concat EmptyString l1
                             +:+ String.concat EmptyString l2))
          = String c ((x +:+ String.concat EmptyString l1)
                        +:+ String.concat EmptyString l2)).
  by rewrite IH.
Qed.

Lemma flatten_element_app r element :
  html_render.flatten_element r element
  = r ++ html_render.flatten_element [] element.
Proof.
  revert r. induction element as [s|l IH|v IH] using item_nested_ind;
    intros r; simpl; [done| |].
  - revert r. induction IH as [|x l Hx _ IHl]; intros r; simpl.
    + by rewrite app_nil_r.
    + rewrite IHl, Hx, (IHl (html_render.flatten_element [] x)).
      by rewrite app_assoc.
  - revert r. induction IH as [|x l Hx _ IHl]; intros r; simpl.
    + by rewrite app_nil_r.
    + rewrite IHl, Hx, (IHl (html_render.flatten_element [] x)).
      by rewrite app_assoc.
Qed.

Lemma flatten_app r tree :
  html_render.flatten r tree = r ++ html_render.flatten [] tree.
Proof.
  unfold html_render.flatten. revert r.
  induction tree as [|x tree IH]; intros r; simpl.
  - by rewrite app_nil_r.
  - rewrite IH, (flatten_element_app r x),
      (IH (html_render.flatten_element [] x)).
    by rewrite app_assoc.
Qed.

Lemma flatten_cons r element tree :
  html_render.flatten r (element :: tree)
  = html_render.flatten (html_render.flatten_element r element) tree.
Proof. done. Qed.

Lemma flatten_concat (tree1 tree2 : list item) :
  html_render.flatten [] (tree1 ++ tree2)
  = html_render.flatten [] tree1 ++ html_render.flatten [] tree2.
Proof.
  unfold html_render.flatten. rewrite foldl_app.
  apply flatten_app.
Qed.

Lemma render_app (tree1 tree2 : list item) :
  html_render.render (tree1 ++ tree2)
  = html_render.render tree1 +:+ html_render.render tree2.
Proof.
  unfold html_render.render. by rewrite flatten_concat, concat_empty_app.
Qed.

Lemma render_cons element tree :
  html_render.render (element :: tree)
  = html_render.render [element] +:+ html_render.render tree.
Proof. apply (render_app [element] tree). Qed.

Lemma render_Str s : html_render.render [Str s] = s.
Proof. done. Qed.

Lemma render_Lst l : html_render.render [Lst l] = html_render.render l.
Proof. done. Qed.

Lemma render_Obj v : html_render.render [Obj v] = html_render.render v.
Proof. done. Qed.




Lemma ul_items (items : list item) r :
  foldl (λ r i, r ++ [Lst [Str "<li>"; i; Str "</li>"]]) r items
  = r ++ ((λ i, Lst [Str "<li>"; i; Str "</li>"]) <$> items).
Proof.
  revert r. induction items as [|i items IH]; intros r; simpl.
  - by rewrite app_nil_r.
  - by rewrite IH, <-app_assoc.
Qed.



Lemma dict_set_fresh {V} (k : string) (v : V) (d : dict V) :
  k ∉ d.*1 → dict_set k v d = d ++ [(k, v)].
Proof.
  induction d as [|[k' v'] d IH]; [done|]. simpl.
  intros Hk. apply not_elem_of_cons in Hk as [Hne Hk].
  rewrite decide_False by done. by rewrite IH.
Qed.

Lemma dict_update_fresh {V} (d other : dict V) :
  NoDup other.*1 → (∀ k, k ∈ other.*1 → k ∉ d.*1) →
  dict_update d other = d ++ other.
Proof.
  unfold dict_update. revert d.
  induction other as [|[k v] other IH]; intros d Hnodup Hfresh; simpl.
  - by rewrite app_nil_r.
  - apply NoDup_cons in Hnodup as [Hk Hnodup].
    rewrite dict_set_fresh by (apply Hfresh; by left).
    rewrite IH; [by rewrite <-app_assoc|done|].
    intros k' Hk'. rewrite fmap_app, elem_of_app. simpl.
    intros [Hin | Hin%list_elem_of_singleton].
    + by apply (Hfresh k'); [right|].
    + by subst k'.
Qed.




(** ** [naturally_sorted] *)

Section natural_order.
Import naturally_sorted.

Lemma findall_takes_turns c rest :
  takes_turns (is_digit c) (findall (String c rest)).
Proof.
  revert c. induction rest as [|c' rest IH]; intros c.
  - simpl. split; [by eexists _, _|done].
  - specialize (IH c'). cbn [findall] in *.
    assert (negb (is_digit c) = is_digit c' ∨ is_digit c = is_digit c')
      as Hcc' by (destruct (is_digit c), (is_digit c'); auto).
    destruct (findall rest) as [|[|c'' run] runs] eqn:Hrest.
    + case_bool_decide as Hc.
      * split; [by eexists _, _|done].
      * destruct Hcc' as [Hcc'|]; [|done].
        split; [by eexists _, _|]. split; [by eexists _, _|done].
    + destruct IH as [_ [(? & ? & ? & _) _]]. done.
    + case_bool_decide as Hc'; cbn [takes_turns] in IH.
      * destruct IH as [_ Hruns]. case_bool_decide as Hc.
        -- split; [by eexists _, _|]. by rewrite Hc.
        -- destruct Hcc' as [Hcc'|]; [|done].
           split; [by eexists _, _|]. split; [by eexists _, _|].
           by rewrite Hcc'.
      * destruct IH as [_ Hruns]. case_bool_decide as Hc.
        -- split; [by eexists _, _|]. by rewrite Hc.
        -- destruct Hcc' as [Hcc'|]; [|done].
           split; [by eexists _, _|]. split; [by eexists _, _|].
           by rewrite Hcc'.
Qed.

Lemma findall_short label :
  Forall (λ run, String.length run ≤ String.length label) (findall label).
Proof.
  induction label as [|c rest IH]; [done|].
  cbn [findall].
  assert (Forall (λ run, String.length run ≤ String.length (String c rest))
                 (findall rest)) as IH'.
  { eapply Forall_impl; [exact IH|]. simpl. intros run. lia. }
  destruct (findall rest) as [|[|c' run] runs].
  - constructor; [simpl; lia|done].
  - constructor; [simpl; lia|done].
  - apply Forall_cons in IH as [Hrun Hruns].
    apply Forall_cons in IH' as [_ Hruns'].
    case_bool_decide.
    + constructor; [|done]. simpl in *. lia.
    + constructor; [simpl; lia|]. constructor; [simpl in *; lia|done].
Qed.

Lemma key_alternates digit runs :
  takes_turns digit runs →
  Forall (λ run, (N.of_nat (String.length run) ≤ 4300)%N) runs →
  alternates digit (maybe_int <$> runs).
Proof.
  revert digit. induction runs as [|run runs IH]; intros digit; [done|].
  intros [(c & s & -> & Hc) Hruns] [Hlen Hlens]%Forall_cons.
  rewrite fmap_cons. unfold maybe_int at 1, int. rewrite Hc.
  apply N.leb_le in Hlen. rewrite Hlen.
  destruct digit; simpl; (split; [done|]); by apply IH.
Qed.

Lemma label_key_alternates label :
  short label → alternates (starts_with_digit label) (key label).
Proof.
  intros Hshort. destruct label as [|c rest]; [done|].
  apply key_alternates; [apply findall_takes_turns|].
  eapply Forall_impl; [apply findall_short|].
  unfold short in Hshort. simpl in *. intros run. lia.
Qed.

Lemma key_lt_returns number k1 k2 :
  alternates number k1 → alternates number k2 →
  ∃ b, key_lt k1 k2 = inr b.
Proof.
  revert number k2. induction k1 as [|a k1 IH]; intros number [|b k2];
    simpl; try by eexists.
  destruct a, b; intros [-> H1] [? H2]; try done.
  - case_decide; [by eapply IH|by eexists].
  - case_decide; [by eapply IH|by eexists].
Qed.

Lemma key_lt_app k k1 k2 : key_lt (k ++ k1) (k ++ k2) = key_lt k1 k2.
Proof.
  induction k as [|a k IH]; [done|]. simpl. by rewrite decide_True.
Qed.

Lemma findall_nonempty c rest : findall (String c rest) ≠ [].
Proof.
  cbn [findall]. destruct (findall rest) as [|[|c' run] runs]; try done.
  by case_bool_decide.
Qed.

Lemma findall_digits d : digits_only d = true → findall d = [d].
Proof.
  induction d as [|c d IH]; [done|]. cbn [digits_only findall].
  destruct d as [|c' d]; [done|].
  intros [Hc Hd]%andb_prop. rewrite (IH Hd).
  rewrite bool_decide_eq_true_2; [done|].
  rewrite Hc. simpl in Hd. destruct d; [done|]. by apply andb_prop in Hd as [-> _].
Qed.

Lemma digits_only_starts d : digits_only d = true → starts_with_digit d = true.
Proof.
  destruct d as [|c [|c' d]]; simpl; [done|done|]. by intros [? _]%andb_prop.
Qed.

Lemma findall_text_digits p d :
  ends_with_text p = true → digits_only d = true →
  findall (p +:+ d) = findall p ++ [d].
Proof.
  intros Hp Hd. induction p as [|c p IH]; [done|].
  change (String c p +:+ d) with (String c (p +:+ d)).
  cbn [findall]. destruct p as [|c' p].
  - change (EmptyString +:+ d) with d. rewrite (findall_digits d Hd).
    pose proof (digits_only_starts d Hd) as Hs.
    destruct d as [|c' d]; [done|]. simpl in Hp, Hs.
    rewrite bool_decide_eq_false_2; [done|].
    rewrite Hs. by destruct (is_digit c).
  - rewrite IH by done.
    pose proof (findall_takes_turns c' p) as Hruns.
    pose proof (findall_nonempty c' p) as Hne.
    destruct (findall (String c' p)) as [|[|c'' run] runs]; [done| |].
    + by destruct Hruns as [(? & ? & ? & _) _].
    + simpl. by case_bool_decide.
Qed.



End natural_order.



